(** * golang-lru: the bounded ordered cache (simplelru.LRUG) and the
      two-queue cache (TwoQueueCacheG)

    A shallow embedding of [simplelru/lru_generics.go] and [2q_generics.go].
    Go's [int] is a 64-bit two's-complement integer carried in [Z], Go's
    [float64] is IEEE 754 binary64 carried in the Standard Library's
    executable [spec_float], a method with a pointer receiver becomes a
    function that returns the new receiver next to its results, and the
    [onEvict] callback is observed through the trace of its calls. *)

From Stdlib Require Import ZArith String List Bool Lia.
From Stdlib Require Import Floats.SpecFloat.
Import ListNotations.

Open Scope Z_scope.

(** ** Go values *)

(** [K comparable]: keys can be compared with [==]. *)
Class Comparable (K : Type) := key_eq_dec : forall x y : K, {x = y} + {x <> y}.

(** The zero value of a type ([var empty V], a named result left unset). *)
Class Zero (A : Type) := zero : A.

#[export] Instance Comparable_Z : Comparable Z := Z.eq_dec.
#[export] Instance Zero_Z : Zero Z := 0.
#[export] Instance Comparable_string : Comparable string := string_dec.
#[export] Instance Zero_string : Zero string := EmptyString.

(** A Go result [(x, err)]: either the value or the text of the error. *)
Inductive result (A : Type) : Type :=
| Ok (a : A)
| Err (msg : string).
Arguments Ok {A} a.
Arguments Err {A} msg.

Definition is_err {A : Type} (r : result A) : bool :=
  match r with Ok _ => false | Err _ => true end.

(** Go's [int] on a 64-bit platform. *)
Module GoInt.

Definition min_int : Z := - 2 ^ 63.
Definition max_int : Z := 2 ^ 63 - 1.

Definition in_range (z : Z) : Prop := min_int <= z <= max_int.

(** Two's-complement wrap-around of an exact result. *)
Definition wrap (z : Z) : Z := (z + 2 ^ 63) mod 2 ^ 64 - 2 ^ 63.

Definition add (x y : Z) : Z := wrap (x + y).
Definition sub (x y : Z) : Z := wrap (x - y).

(** [len(s)]: the length of a collection held in memory. *)
Definition len {A : Type} (l : list A) : Z := Z.of_nat (List.length l).

End GoInt.

(** Go's [float64]: IEEE 754 binary64, round to nearest even. *)
Module Float64.

Definition prec : Z := 53.
Definition emax : Z := 1024.

Definition float64 : Type := spec_float.

(** The conversion [float64(n)] of an integer. *)
Definition of_int (n : Z) : float64 := binary_normalize prec emax n 0 false.

Definition mul (x y : float64) : float64 := SFmul prec emax x y.

(** [x < y] and [x > y]; both are false when an operand is NaN. *)
Definition lt (x y : float64) : bool := SFltb x y.
Definition gt (x y : float64) : bool := SFltb y x.

(** The conversion [int(f)]: the fraction is discarded (truncation towards
    zero).  When the value is NaN, infinite or outside [int] the Go
    specification leaves the result to the implementation; the value used
    here is the one the gc compiler produces on amd64. *)
Definition to_int (f : float64) : Z :=
  match f with
  | S754_zero _ => 0
  | S754_finite s m e =>
      let t := if 0 <=? e then Z.pos m * 2 ^ e else Z.pos m / 2 ^ (- e) in
      let z := if s then - t else t in
      if (GoInt.min_int <=? z) && (z <=? GoInt.max_int) then z
      else GoInt.min_int
  | S754_infinity _ | S754_nan => GoInt.min_int
  end.

(** The constants of the source: [0.0], [1.0], [0.25], [0.50]. *)
Definition f0_0 : float64 := S754_zero false.
Definition f1_0 : float64 := S754_finite false 4503599627370496 (-52).
Definition f0_25 : float64 := S754_finite false 4503599627370496 (-54).
Definition f0_50 : float64 := S754_finite false 4503599627370496 (-53).

(** [f] lies in the closed interval [0.0, 1.0] (a NaN does not). *)
Definition in_unit_interval (f : float64) : bool :=
  SFleb f0_0 f && SFleb f f1_0.

End Float64.

(** ** The ordered map *)

(** Modelled from the spec: the ordered map behind the cache
  ([omap.OrderedMap] of the package go-orderedmap, imported by
  [lru_generics.go]) is not part of the sources.  The spec describes it
  as an insertion-ordered mapping whose order is oldest first, with
  lookup by key, reorder-to-tail, removal by key and access by position
  zero; [Set] on a key that is present overwrites the value where the
  entry stands, and on a new key appends the entry at the tail. *)
Module omap.
Section OrderedMap.

Context {K V : Type} `{Comparable K} `{Zero V}.

(** [omap.Item]. *)
Definition Item : Type := (K * V)%type.

(** Entries, oldest first; a key occurs at most once (see [wf]). *)
Definition OrderedMap : Type := list Item.

Definition New : OrderedMap := [].

Fixpoint lookup (key : K) (m : OrderedMap) : option V :=
  match m with
  | [] => None
  | (k, v) :: m' => if key_eq_dec k key then Some v else lookup key m'
  end.

Definition Get (key : K) (m : OrderedMap) : V * bool :=
  match lookup key m with
  | Some v => (v, true)
  | None => (zero, false)
  end.

Fixpoint Set_ (key : K) (value : V) (m : OrderedMap) : OrderedMap :=
  match m with
  | [] => [(key, value)]
  | (k, v) :: m' =>
      if key_eq_dec k key then (k, value) :: m'
      else (k, v) :: Set_ key value m'
  end.

Fixpoint Delete (key : K) (m : OrderedMap) : OrderedMap :=
  match m with
  | [] => []
  | (k, v) :: m' =>
      if key_eq_dec k key then m' else (k, v) :: Delete key m'
  end.

(** [Pop] removes the entry and hands it back. *)
Definition Pop (key : K) (m : OrderedMap) : option Item * OrderedMap :=
  match lookup key m with
  | Some v => (Some (key, v), Delete key m)
  | None => (None, m)
  end.

Definition ToTail (key : K) (m : OrderedMap) : OrderedMap :=
  match lookup key m with
  | Some v => Delete key m ++ [(key, v)]
  | None => m
  end.

Definition GetAt (i : Z) (m : OrderedMap) : option Item :=
  if i <? 0 then None else nth_error m (Z.to_nat i).

Definition Keys (m : OrderedMap) : list K := map fst m.

Definition Items (m : OrderedMap) : list Item := m.

Definition Len (m : OrderedMap) : Z := GoInt.len m.

(** The representation invariant of a map: keys are unique. *)
Definition wf (m : OrderedMap) : Prop := NoDup (Keys m).

End OrderedMap.
Arguments Item : clear implicits.
Arguments OrderedMap : clear implicits.
End omap.

(** ** simplelru: the bounded ordered cache ([lru_generics.go]) *)
Module simplelru.
Section LRU.

Context {K V : Type} `{Comparable K} `{Zero K} `{Zero V}.

(** [LRUG].  [onEvict] tells whether a callback is installed ([false] is
    [nil]); the callback's effect is the sequence of its calls, kept in
    [notified], oldest call first. *)
Record LRUG : Type := mkLRUG {
  size : Z;
  items : omap.OrderedMap K V;
  onEvict : bool;
  notified : list (K * V)
}.

Definition with_items (c : LRUG) (m : omap.OrderedMap K V) : LRUG :=
  mkLRUG (size c) m (onEvict c) (notified c).

Definition with_size (c : LRUG) (sz : Z) : LRUG :=
  mkLRUG sz (items c) (onEvict c) (notified c).

(** A call [c.onEvict(key, value)]. *)
Definition call_onEvict (e : K * V) (c : LRUG) : LRUG :=
  mkLRUG (size c) (items c) (onEvict c) (notified c ++ [e]).

Definition NewLRUG (sz : Z) (cb : bool) : result LRUG :=
  if sz <=? 0 then Err "must provide a positive size"
  else Ok (mkLRUG sz omap.New cb []).

Definition removeElement (key : K) (c : LRUG) : LRUG :=
  match omap.Pop key (items c) with
  | (Some e, m) =>
      let c1 := with_items c m in
      if onEvict c1 then call_onEvict e c1 else c1
  | (None, m) => with_items c m
  end.

Definition removeOldest (c : LRUG) : LRUG :=
  match omap.GetAt 0 (items c) with
  | Some e => removeElement (fst e) c
  | None => c
  end.

Definition Purge (c : LRUG) : LRUG :=
  fold_left
    (fun c item =>
       let c1 := if onEvict c then call_onEvict item c else c in
       with_items c1 (omap.Delete (fst item) (items c1)))
    (omap.Items (items c)) c.

Definition Add (key : K) (value : V) (c : LRUG) : bool * LRUG :=
  let c1 :=
    if snd (omap.Get key (items c))
    then with_items c (omap.ToTail key (items c))
    else c in
  let c2 := with_items c1 (omap.Set_ key value (items c1)) in
  let evict := omap.Len (items c2) >? size c2 in
  if evict then (evict, removeOldest c2) else (evict, c2).

Definition Peek (key : K) (c : LRUG) : V * bool :=
  omap.Get key (items c).

Definition Get (key : K) (c : LRUG) : V * bool * LRUG :=
  let '(v, ok) := Peek key c in
  if ok then (v, ok, with_items c (omap.ToTail key (items c)))
  else (v, ok, c).

Definition Contains (key : K) (c : LRUG) : bool :=
  snd (omap.Get key (items c)).

Definition Remove (key : K) (c : LRUG) : bool * LRUG :=
  let '(_, ok) := Peek key c in
  if ok then (ok, removeElement key c) else (ok, c).

Definition RemoveOldest (c : LRUG) : K * V * bool * LRUG :=
  match omap.GetAt 0 (items c) with
  | Some e => (fst e, snd e, true, removeElement (fst e) c)
  | None => (zero, zero, false, c)
  end.

Definition GetOldest (c : LRUG) : K * V * bool :=
  match omap.GetAt 0 (items c) with
  | Some e => (fst e, snd e, true)
  | None => (zero, zero, false)
  end.

Definition Keys (c : LRUG) : list K := omap.Keys (items c).

Definition Len (c : LRUG) : Z := omap.Len (items c).

(** The loop [for i := 0; i < diff; i++ { c.removeOldest() }], by the number
    of iterations left. *)
Fixpoint resize_loop (n : nat) (c : LRUG) : LRUG :=
  match n with
  | O => c
  | S n' => resize_loop n' (removeOldest c)
  end.

Definition Resize (sz : Z) (c : LRUG) : Z * LRUG :=
  let diff := GoInt.sub (Len c) sz in
  let diff := if diff <? 0 then 0 else diff in
  let c1 := resize_loop (Z.to_nat diff) c in
  (diff, with_size c1 sz).

(** The public operations, for histories of calls. *)
Inductive op : Type :=
| OpPurge
| OpAdd (key : K) (value : V)
| OpGet (key : K)
| OpContains (key : K)
| OpPeek (key : K)
| OpRemove (key : K)
| OpRemoveOldest
| OpGetOldest
| OpKeys
| OpLen
| OpResize (sz : Z).

(** The cache after one call (the call's results are dropped). *)
Definition exec (o : op) (c : LRUG) : LRUG :=
  match o with
  | OpPurge => Purge c
  | OpAdd key value => snd (Add key value c)
  | OpGet key => snd (Get key c)
  | OpRemove key => snd (Remove key c)
  | OpRemoveOldest => snd (RemoveOldest c)
  | OpResize sz => snd (Resize sz c)
  | OpContains _ | OpPeek _ | OpGetOldest | OpKeys | OpLen => c
  end.

Definition run (os : list op) (c : LRUG) : LRUG :=
  fold_left (fun c o => exec o c) os c.

(** The map an [Add] builds before it looks at the capacity. *)
Definition added (key : K) (value : V) (m : omap.OrderedMap K V)
  : omap.OrderedMap K V :=
  omap.Set_ key value (omap.ToTail key m).

(** The capacity after a history of calls on a cache built with [sz]. *)
Definition capacity_after (sz : Z) (os : list op) : Z :=
  fold_left (fun cap o => match o with OpResize n => n | _ => cap end) os sz.

(** Keys are unique in the cache's map. *)
Definition wf (c : LRUG) : Prop := omap.wf (items c).

(** The entry count does not exceed the capacity. *)
Definition within_capacity (c : LRUG) : Prop := Len c <= size c.

(** Every [Resize] of a history is given a capacity that is not negative. *)
Definition resizes_nonneg (os : list op) : Prop :=
  forall sz, In (OpResize sz) os -> 0 <= sz <= GoInt.max_int.

(** The caches a client can hold: built by [NewLRUG], then any history of
    public calls whose [Resize] capacities are not negative. *)
Definition built (c : LRUG) : Prop :=
  exists sz cb c0 os,
    sz <= GoInt.max_int /\ NewLRUG sz cb = Ok c0
    /\ resizes_nonneg os /\ c = run os c0.

(** The history that adds the entries of a list, first entry first. *)
Definition adds (kvs : list (K * V)) : list op :=
  map (fun kv => OpAdd (fst kv) (snd kv)) kvs.

End LRU.
Arguments LRUG : clear implicits.
Arguments op : clear implicits.
End simplelru.

(** ** lru: the two-queue cache ([2q_generics.go]) *)

(** Error propagation: [x, err := e; if err != nil { return nil, err }]. *)
Definition bind {A B : Type} (r : result A) (k : A -> result B) : result B :=
  match r with
  | Ok a => k a
  | Err msg => Err msg
  end.

Notation "x <- e ;; k" := (bind e (fun x => k))
  (at level 61, e at next level, right associativity).

Module lru.
Import Float64.
Section TwoQueue.

Context {K V : Type} `{Comparable K} `{Zero K} `{Zero V}.

Definition Default2QRecentRatioG : float64 := f0_25.
Definition Default2QGhostEntriesG : float64 := f0_50.

(** [TwoQueueCacheG].  The [lock] field is left out: the functions below are
    the bodies the lock serialises, run one at a time. *)
Record TwoQueueCacheG : Type := mkTwoQueueCacheG {
  size : Z;
  recentSize : Z;
  recent : simplelru.LRUG K V;
  frequent : simplelru.LRUG K V;
  recentEvict : simplelru.LRUG K V
}.

Definition with_recent (c : TwoQueueCacheG) (r : simplelru.LRUG K V) :=
  mkTwoQueueCacheG (size c) (recentSize c) r (frequent c) (recentEvict c).

Definition with_frequent (c : TwoQueueCacheG) (f : simplelru.LRUG K V) :=
  mkTwoQueueCacheG (size c) (recentSize c) (recent c) f (recentEvict c).

Definition with_recentEvict (c : TwoQueueCacheG) (g : simplelru.LRUG K V) :=
  mkTwoQueueCacheG (size c) (recentSize c) (recent c) (frequent c) g.

Definition New2QParamsG (sz : Z) (recentRatio ghostRatio : float64)
  : result TwoQueueCacheG :=
  if sz <=? 0 then Err "invalid size"
  else if lt recentRatio f0_0 || gt recentRatio f1_0
  then Err "invalid recent ratio"
  else if lt ghostRatio f0_0 || gt ghostRatio f1_0
  then Err "invalid ghost ratio"
  else
    let recentSz := to_int (mul (of_int sz) recentRatio) in
    let evictSize := to_int (mul (of_int sz) ghostRatio) in
    r <- simplelru.NewLRUG sz false ;;
    f <- simplelru.NewLRUG sz false ;;
    g <- simplelru.NewLRUG evictSize false ;;
    Ok (mkTwoQueueCacheG sz recentSz r f g).

Definition New2QG (sz : Z) : result TwoQueueCacheG :=
  New2QParamsG sz Default2QRecentRatioG Default2QGhostEntriesG.

Definition Get (key : K) (c : TwoQueueCacheG) : V * bool * TwoQueueCacheG :=
  let '(val, ok, f) := simplelru.Get key (frequent c) in
  let c := with_frequent c f in
  if ok then (val, ok, c)
  else
    let '(val, ok) := simplelru.Peek key (recent c) in
    if ok then
      let c := with_recent c (snd (simplelru.Remove key (recent c))) in
      let c := with_frequent c (snd (simplelru.Add key val (frequent c))) in
      (val, ok, c)
    else (zero, false, c).

Definition ensureSpace (recentEvictHint : bool) (c : TwoQueueCacheG)
  : TwoQueueCacheG :=
  let recentLen := simplelru.Len (recent c) in
  let freqLen := simplelru.Len (frequent c) in
  if GoInt.add recentLen freqLen <? size c then c
  else if (recentLen >? 0)
          && ((recentLen >? recentSize c)
              || ((recentLen =? recentSize c) && negb recentEvictHint))
  then
    let '(k, _, _, r) := simplelru.RemoveOldest (recent c) in
    let c := with_recent c r in
    with_recentEvict c (snd (simplelru.Add k zero (recentEvict c)))
  else
    with_frequent c (snd (simplelru.RemoveOldest (frequent c))).

Definition Add (key : K) (value : V) (c : TwoQueueCacheG) : TwoQueueCacheG :=
  if simplelru.Contains key (frequent c) then
    with_frequent c (snd (simplelru.Add key value (frequent c)))
  else if simplelru.Contains key (recent c) then
    let c := with_recent c (snd (simplelru.Remove key (recent c))) in
    with_frequent c (snd (simplelru.Add key value (frequent c)))
  else if simplelru.Contains key (recentEvict c) then
    let c := ensureSpace true c in
    let c := with_recentEvict c (snd (simplelru.Remove key (recentEvict c))) in
    with_frequent c (snd (simplelru.Add key value (frequent c)))
  else
    let c := ensureSpace false c in
    with_recent c (snd (simplelru.Add key value (recent c))).

Definition Len (c : TwoQueueCacheG) : Z :=
  GoInt.add (simplelru.Len (recent c)) (simplelru.Len (frequent c)).

Definition Keys (c : TwoQueueCacheG) : list K :=
  let k1 := simplelru.Keys (frequent c) in
  let k2 := simplelru.Keys (recent c) in
  k1 ++ k2.

Definition Remove (key : K) (c : TwoQueueCacheG) : TwoQueueCacheG :=
  let '(present, f) := simplelru.Remove key (frequent c) in
  let c := with_frequent c f in
  if present then c
  else
    let '(present, r) := simplelru.Remove key (recent c) in
    let c := with_recent c r in
    if present then c
    else
      let '(present, g) := simplelru.Remove key (recentEvict c) in
      let c := with_recentEvict c g in
      if present then c else c.

Definition Purge (c : TwoQueueCacheG) : TwoQueueCacheG :=
  let c := with_recent c (simplelru.Purge (recent c)) in
  let c := with_frequent c (simplelru.Purge (frequent c)) in
  with_recentEvict c (simplelru.Purge (recentEvict c)).

Definition Contains (key : K) (c : TwoQueueCacheG) : bool :=
  simplelru.Contains key (frequent c) || simplelru.Contains key (recent c).

Definition Peek (key : K) (c : TwoQueueCacheG) : V * bool :=
  let '(val, ok) := simplelru.Peek key (frequent c) in
  if ok then (val, ok) else simplelru.Peek key (recent c).

(** The public operations, for histories of calls. *)
Inductive op : Type :=
| OpGet (key : K)
| OpAdd (key : K) (value : V)
| OpRemove (key : K)
| OpContains (key : K)
| OpPeek (key : K)
| OpKeys
| OpLen
| OpPurge.

(** The cache after one call (the call's results are dropped). *)
Definition exec (o : op) (c : TwoQueueCacheG) : TwoQueueCacheG :=
  match o with
  | OpGet key => snd (Get key c)
  | OpAdd key value => Add key value c
  | OpRemove key => Remove key c
  | OpPurge => Purge c
  | OpContains _ | OpPeek _ | OpKeys | OpLen => c
  end.

Definition run (os : list op) (c : TwoQueueCacheG) : TwoQueueCacheG :=
  fold_left (fun c o => exec o c) os c.

(** The states a client can bring a cache into: built by [New2QParamsG],
    then any history of public calls. *)
Definition reachable (c : TwoQueueCacheG) : Prop :=
  exists sz recentRatio ghostRatio c0 os,
    New2QParamsG sz recentRatio ghostRatio = Ok c0 /\ c = run os c0.

(** Membership of a key in a pool. *)
Definition holds (key : K) (p : simplelru.LRUG K V) : Prop :=
  In key (simplelru.Keys p).

(** In how many of the three pools a key is found. *)
Definition pool_count (key : K) (c : TwoQueueCacheG) : nat :=
  (Nat.b2n (simplelru.Contains key (recent c))
   + Nat.b2n (simplelru.Contains key (frequent c))
   + Nat.b2n (simplelru.Contains key (recentEvict c)))%nat.

(** What every history of calls maintains: each pool has unique keys and
    a positive capacity, and no key sits in two pools. *)
Record inv (c : TwoQueueCacheG) : Prop := mk_inv {
  inv_recent_wf : simplelru.wf (recent c);
  inv_frequent_wf : simplelru.wf (frequent c);
  inv_recentEvict_wf : simplelru.wf (recentEvict c);
  inv_recent_size : 1 <= simplelru.size (recent c);
  inv_frequent_size : 1 <= simplelru.size (frequent c);
  inv_recentEvict_size : 1 <= simplelru.size (recentEvict c);
  inv_recent_frequent :
    forall key, holds key (recent c) -> ~ holds key (frequent c);
  inv_recent_recentEvict :
    forall key, holds key (recent c) -> ~ holds key (recentEvict c);
  inv_frequent_recentEvict :
    forall key, holds key (frequent c) -> ~ holds key (recentEvict c)
}.

(** The cache is within its size, with a target for [recent] below the
    size: the pools are built with capacity [size] and the live entries
    number at most [size]. *)
Record sized (c : TwoQueueCacheG) : Prop := mk_sized {
  sized_recent : simplelru.size (recent c) = size c;
  sized_frequent : simplelru.size (frequent c) = size c;
  sized_target : recentSize c < size c;
  sized_int : size c <= GoInt.max_int;
  sized_len :
    simplelru.Len (recent c) + simplelru.Len (frequent c) <= size c
}.

(** [ensureSpace] takes its first eviction branch: the oldest entry of
    [recent] leaves for the ghost pool. *)
Definition evicts_from_recent (recentEvictHint : bool) (c : TwoQueueCacheG)
  : bool :=
  let recentLen := simplelru.Len (recent c) in
  let freqLen := simplelru.Len (frequent c) in
  negb (GoInt.add recentLen freqLen <? size c)
  && ((recentLen >? 0)
      && ((recentLen >? recentSize c)
          || ((recentLen =? recentSize c) && negb recentEvictHint))).

(** A pool without its entries: capacity, callback and recorded calls. *)
Definition pool_shell (p : simplelru.LRUG K V) : simplelru.LRUG K V :=
  simplelru.mkLRUG (simplelru.size p) [] (simplelru.onEvict p)
    (simplelru.notified p).

(** A cache without its entries. *)
Definition shell (c : TwoQueueCacheG) : TwoQueueCacheG :=
  mkTwoQueueCacheG (size c) (recentSize c) (pool_shell (recent c))
    (pool_shell (frequent c)) (pool_shell (recentEvict c)).

(** Each pool holds no more entries than its own capacity. *)
Definition pools_within_capacity (c : TwoQueueCacheG) : Prop :=
  simplelru.within_capacity (recent c)
  /\ simplelru.within_capacity (frequent c)
  /\ simplelru.within_capacity (recentEvict c).

(** No pool has a callback (the constructor passes [nil]). *)
Definition quiet (c : TwoQueueCacheG) : Prop :=
  simplelru.onEvict (recent c) = false
  /\ simplelru.onEvict (frequent c) = false
  /\ simplelru.onEvict (recentEvict c) = false.

End TwoQueue.
Arguments TwoQueueCacheG : clear implicits.
Arguments op : clear implicits.
End lru.

(** * Properties *)

(** ** Go integers *)

Lemma wrap_in_range (z : Z) : GoInt.in_range z -> GoInt.wrap z = z.
Proof.
  unfold GoInt.in_range, GoInt.min_int, GoInt.max_int, GoInt.wrap.
  intros Hz. rewrite Z.mod_small; lia.
Qed.

Lemma len_nonneg {A : Type} (l : list A) : 0 <= GoInt.len l.
Proof. unfold GoInt.len. lia. Qed.

(** ** The ordered map *)
Section OrderedMapFacts.

Context {K V : Type} `{Comparable K} `{Zero V}.
Implicit Types (m : omap.OrderedMap K V) (k key : K) (v value : V).

Ltac key_cases :=
  repeat match goal with
  | |- context [key_eq_dec ?a ?b] => destruct (key_eq_dec a b); subst
  | H : context [key_eq_dec ?a ?b] |- _ => destruct (key_eq_dec a b); subst
  end.

Lemma lookup_none_iff key m :
  omap.lookup key m = None <-> ~ In key (omap.Keys m).
Proof.
  induction m as [|[k v] m IH]; simpl.
  - tauto.
  - key_cases.
    + split; [discriminate | intros Hn; exfalso; apply Hn; now left].
    + rewrite IH. split; [intros Hn [Hk|Hk]; auto | tauto].
Qed.

Lemma lookup_some_in key v m :
  omap.lookup key m = Some v -> In key (omap.Keys m).
Proof.
  intros Hl. destruct (in_dec key_eq_dec key (omap.Keys m)) as [Hi|Hi]; auto.
  apply lookup_none_iff in Hi. congruence.
Qed.

Lemma in_lookup_some key m :
  In key (omap.Keys m) -> exists v, omap.lookup key m = Some v.
Proof.
  intros Hi. destruct (omap.lookup key m) as [v|] eqn:Hl; eauto.
  apply lookup_none_iff in Hl. contradiction.
Qed.

Lemma Get_found_iff key m :
  snd (omap.Get key m) = true <-> In key (omap.Keys m).
Proof.
  unfold omap.Get. destruct (omap.lookup key m) as [v|] eqn:Hl; simpl.
  - split; auto. intros _. eapply lookup_some_in; eauto.
  - apply lookup_none_iff in Hl. split; [discriminate | contradiction].
Qed.

Lemma Set_present key value m :
  In key (omap.Keys m) -> omap.Keys (omap.Set_ key value m) = omap.Keys m.
Proof.
  induction m as [|[k v] m IH]; simpl; [tauto|].
  intros Hi. key_cases; simpl; auto.
  f_equal. apply IH. destruct Hi; congruence.
Qed.

Lemma Set_absent key value m :
  ~ In key (omap.Keys m) -> omap.Set_ key value m = m ++ [(key, value)].
Proof.
  induction m as [|[k v] m IH]; simpl; auto.
  intros Hn. key_cases; [tauto|]. f_equal. apply IH. tauto.
Qed.

Lemma Set_length_present key value m :
  In key (omap.Keys m) -> length (omap.Set_ key value m) = length m.
Proof.
  intros Hi. apply (Set_present key value) in Hi.
  unfold omap.Keys in Hi. apply (f_equal (@length K)) in Hi.
  now rewrite !length_map in Hi.
Qed.

Lemma lookup_Set_same key value m :
  omap.lookup key (omap.Set_ key value m) = Some value.
Proof.
  induction m as [|[k v] m IH]; simpl; key_cases; simpl; key_cases;
    auto; congruence.
Qed.

Lemma lookup_Set_other key key' value m :
  key' <> key ->
  omap.lookup key' (omap.Set_ key value m) = omap.lookup key' m.
Proof.
  intros Hne. induction m as [|[k v] m IH]; simpl; key_cases; simpl;
    key_cases; auto; congruence.
Qed.

Lemma Delete_absent key m :
  ~ In key (omap.Keys m) -> omap.Delete key m = m.
Proof.
  induction m as [|[k v] m IH]; simpl; auto.
  intros Hn. key_cases; [tauto|]. f_equal. apply IH. tauto.
Qed.

Lemma Delete_length key m :
  In key (omap.Keys m) -> S (length (omap.Delete key m)) = length m.
Proof.
  induction m as [|[k v] m IH]; simpl; [tauto|].
  intros Hi. key_cases; simpl; auto.
  f_equal. apply IH. destruct Hi; congruence.
Qed.

Lemma Delete_subset key key' m :
  In key' (omap.Keys (omap.Delete key m)) -> In key' (omap.Keys m).
Proof.
  induction m as [|[k v] m IH]; simpl; auto.
  key_cases; simpl; tauto.
Qed.

Lemma Delete_other key key' m :
  key' <> key -> In key' (omap.Keys m) ->
  In key' (omap.Keys (omap.Delete key m)).
Proof.
  intros Hne. induction m as [|[k v] m IH]; simpl; auto.
  key_cases; simpl; intros [Hk|Hk]; auto; congruence.
Qed.

Lemma Delete_wf key m : omap.wf m -> omap.wf (omap.Delete key m).
Proof.
  unfold omap.wf. induction m as [|[k v] m IH]; simpl; auto.
  intros Hnd. inversion Hnd as [|? ? Hk Hm]; subst.
  key_cases; simpl; auto.
  constructor; auto. intros Hi. apply Hk. eapply Delete_subset; eauto.
Qed.

Lemma Delete_gone key m :
  omap.wf m -> ~ In key (omap.Keys (omap.Delete key m)).
Proof.
  unfold omap.wf. induction m as [|[k v] m IH]; simpl; auto.
  intros Hnd. inversion Hnd as [|? ? Hk Hm]; subst.
  key_cases; simpl; auto.
  intros [Hi|Hi]; [congruence | now apply IH].
Qed.

Lemma lookup_Delete_other key key' m :
  key' <> key ->
  omap.lookup key' (omap.Delete key m) = omap.lookup key' m.
Proof.
  intros Hne. induction m as [|[k v] m IH]; simpl; key_cases; simpl;
    key_cases; auto; congruence.
Qed.

Lemma Keys_app m1 m2 : omap.Keys (m1 ++ m2) = omap.Keys m1 ++ omap.Keys m2.
Proof. apply map_app. Qed.

Lemma lookup_app_absent key m1 m2 :
  ~ In key (omap.Keys m1) ->
  omap.lookup key (m1 ++ m2) = omap.lookup key m2.
Proof.
  induction m1 as [|[k v] m1 IH]; simpl; auto.
  intros Hn. key_cases; [tauto|]. apply IH. tauto.
Qed.

Lemma lookup_app_present key v m1 m2 :
  omap.lookup key m1 = Some v -> omap.lookup key (m1 ++ m2) = Some v.
Proof.
  induction m1 as [|[k w] m1 IH]; simpl; [discriminate|].
  key_cases; auto.
Qed.

Lemma wf_snoc key value m :
  omap.wf m -> ~ In key (omap.Keys m) -> omap.wf (m ++ [(key, value)]).
Proof.
  unfold omap.wf. intros Hnd Hn. rewrite Keys_app. simpl.
  induction (omap.Keys m) as [|k ks IH]; simpl.
  - repeat constructor. auto.
  - inversion Hnd as [|? ? Hk Hks]; subst. simpl in Hn.
    constructor.
    + rewrite in_app_iff. simpl. intros [Hi|[Hi|[]]]; [tauto|].
      apply Hn. now left.
    + apply IH; auto.
Qed.

Lemma ToTail_keys key m :
  In key (omap.Keys m) ->
  omap.Keys (omap.ToTail key m) = omap.Keys (omap.Delete key m) ++ [key].
Proof.
  intros Hi. unfold omap.ToTail.
  destruct (in_lookup_some key m Hi) as [v ->].
  now rewrite Keys_app.
Qed.

Lemma ToTail_absent key m :
  ~ In key (omap.Keys m) -> omap.ToTail key m = m.
Proof.
  intros Hn. unfold omap.ToTail.
  apply lookup_none_iff in Hn. now rewrite Hn.
Qed.

Lemma ToTail_wf key m : omap.wf m -> omap.wf (omap.ToTail key m).
Proof.
  intros Hwf. unfold omap.ToTail.
  destruct (omap.lookup key m) as [v|] eqn:Hl; auto.
  apply wf_snoc; [now apply Delete_wf | now apply Delete_gone].
Qed.

Lemma ToTail_in key key' m :
  In key' (omap.Keys (omap.ToTail key m)) <-> In key' (omap.Keys m).
Proof.
  unfold omap.ToTail.
  destruct (omap.lookup key m) as [v|] eqn:Hl; [|tauto].
  rewrite Keys_app, in_app_iff. simpl. split.
  - intros [Hi|[Hi|[]]]; [eapply Delete_subset; eauto|].
    subst. eapply lookup_some_in; eauto.
  - intros Hi. destruct (key_eq_dec key' key); subst; auto.
    left. now apply Delete_other.
Qed.

Lemma ToTail_length key m : length (omap.ToTail key m) = length m.
Proof.
  unfold omap.ToTail.
  destruct (omap.lookup key m) as [v|] eqn:Hl; auto.
  rewrite length_app. simpl.
  rewrite <- (Delete_length key m); [lia|].
  eapply lookup_some_in; eauto.
Qed.

Lemma lookup_ToTail key key' m :
  omap.wf m -> omap.lookup key' (omap.ToTail key m) = omap.lookup key' m.
Proof.
  intros Hwf. unfold omap.ToTail.
  destruct (omap.lookup key m) as [v|] eqn:Hl; auto.
  destruct (key_eq_dec key' key) as [->|Hne].
  - rewrite lookup_app_absent by now apply Delete_gone.
    simpl. key_cases; congruence.
  - destruct (omap.lookup key' (omap.Delete key m)) as [w|] eqn:Hd.
    + rewrite (lookup_app_present _ _ _ _ Hd).
      now rewrite lookup_Delete_other in Hd.
    + rewrite lookup_app_absent by now apply lookup_none_iff.
      simpl. key_cases; [congruence|].
      now rewrite lookup_Delete_other in Hd.
Qed.

Lemma Set_wf key value m : omap.wf m -> omap.wf (omap.Set_ key value m).
Proof.
  intros Hwf. destruct (in_dec key_eq_dec key (omap.Keys m)) as [Hi|Hn].
  - unfold omap.wf. now rewrite Set_present.
  - rewrite Set_absent by auto. now apply wf_snoc.
Qed.

Lemma Set_in key key' value m :
  In key' (omap.Keys (omap.Set_ key value m)) <->
  key' = key \/ In key' (omap.Keys m).
Proof.
  destruct (in_dec key_eq_dec key (omap.Keys m)) as [Hi|Hn].
  - rewrite Set_present by auto. split; auto. intros [->|]; auto.
  - rewrite Set_absent, Keys_app, in_app_iff by auto. simpl.
    split; [intros [|[|[]]]; auto | intros [|]; auto].
Qed.

End OrderedMapFacts.

(** ** The bounded ordered cache *)
Section LRUFacts.

Context {K V : Type} `{Comparable K} `{Zero K} `{Zero V}.
Implicit Types (c : simplelru.LRUG K V) (k key : K) (v value : V).

Lemma removeElement_items key c :
  simplelru.items (simplelru.removeElement key c)
  = omap.Delete key (simplelru.items c).
Proof.
  unfold simplelru.removeElement, omap.Pop.
  destruct (omap.lookup key (simplelru.items c)) as [v|] eqn:Hl; simpl.
  - now destruct (simplelru.onEvict c).
  - symmetry. apply Delete_absent. now apply lookup_none_iff.
Qed.

Lemma removeElement_size key c :
  simplelru.size (simplelru.removeElement key c) = simplelru.size c.
Proof.
  unfold simplelru.removeElement, omap.Pop.
  destruct (omap.lookup key (simplelru.items c)); simpl; auto.
  now destruct (simplelru.onEvict c).
Qed.

Lemma GetAt_0 (m : omap.OrderedMap K V) : omap.GetAt 0 m = hd_error m.
Proof. now destruct m. Qed.

Lemma Delete_head (m : omap.OrderedMap K V) e :
  hd_error m = Some e -> omap.Delete (fst e) m = tl m.
Proof.
  destruct m as [|[k v] m]; simpl; [discriminate|].
  intros [= <-]. simpl. destruct (key_eq_dec k k); congruence.
Qed.

Lemma removeOldest_items c :
  simplelru.items (simplelru.removeOldest c) = tl (simplelru.items c).
Proof.
  unfold simplelru.removeOldest. rewrite GetAt_0.
  destruct (hd_error (simplelru.items c)) as [e|] eqn:Hh.
  - rewrite removeElement_items. now apply Delete_head.
  - now destruct (simplelru.items c).
Qed.

Lemma removeOldest_size c :
  simplelru.size (simplelru.removeOldest c) = simplelru.size c.
Proof.
  unfold simplelru.removeOldest.
  destruct (omap.GetAt 0 (simplelru.items c)); auto.
  apply removeElement_size.
Qed.

Lemma RemoveOldest_state c :
  snd (simplelru.RemoveOldest c) = simplelru.removeOldest c.
Proof.
  unfold simplelru.RemoveOldest, simplelru.removeOldest.
  now destruct (omap.GetAt 0 (simplelru.items c)).
Qed.

Lemma RemoveOldest_key c e :
  hd_error (simplelru.items c) = Some e ->
  fst (simplelru.RemoveOldest c) = (fst e, snd e, true).
Proof.
  unfold simplelru.RemoveOldest. rewrite GetAt_0. now intros ->.
Qed.

Lemma Add_items key value c :
  simplelru.items (snd (simplelru.Add key value c))
  = if omap.Len (simplelru.added key value (simplelru.items c))
          >? simplelru.size c
    then tl (simplelru.added key value (simplelru.items c))
    else simplelru.added key value (simplelru.items c).
Proof.
  unfold simplelru.Add, simplelru.added.
  assert (Hc : simplelru.items
                 (if snd (omap.Get key (simplelru.items c))
                  then simplelru.with_items c
                         (omap.ToTail key (simplelru.items c))
                  else c)
               = omap.ToTail key (simplelru.items c)).
  { destruct (snd (omap.Get key (simplelru.items c))) eqn:Hg; simpl; auto.
    symmetry. apply ToTail_absent. rewrite <- Get_found_iff. congruence. }
  assert (Hs : simplelru.size
                 (if snd (omap.Get key (simplelru.items c))
                  then simplelru.with_items c
                         (omap.ToTail key (simplelru.items c))
                  else c)
               = simplelru.size c).
  { now destruct (snd (omap.Get key (simplelru.items c))). }
  simpl. rewrite Hc, Hs.
  destruct (omap.Len _ >? simplelru.size c); simpl; auto.
  now rewrite removeOldest_items.
Qed.

Lemma Add_size key value c :
  simplelru.size (snd (simplelru.Add key value c)) = simplelru.size c.
Proof.
  unfold simplelru.Add.
  set (c1 := if snd (omap.Get key (simplelru.items c)) then _ else c).
  assert (Hs : simplelru.size c1 = simplelru.size c).
  { subst c1. now destruct (snd (omap.Get key (simplelru.items c))). }
  simpl. destruct (_ >? _); simpl; [rewrite removeOldest_size|]; auto.
Qed.

Lemma Add_evicted key value c :
  fst (simplelru.Add key value c)
  = (omap.Len (simplelru.added key value (simplelru.items c)) >? simplelru.size c).
Proof.
  unfold simplelru.Add, simplelru.added.
  destruct (snd (omap.Get key (simplelru.items c))) eqn:Hg; simpl.
  - now destruct (_ >? _).
  - rewrite ToTail_absent by (rewrite <- Get_found_iff; congruence).
    now destruct (_ >? _).
Qed.

Lemma Set_app_absent key value (m1 m2 : omap.OrderedMap K V) :
  ~ In key (omap.Keys m1) ->
  omap.Set_ key value (m1 ++ m2) = m1 ++ omap.Set_ key value m2.
Proof.
  induction m1 as [|[k w] m1 IH]; simpl; auto.
  intros Hn. destruct (key_eq_dec k key); [tauto|].
  f_equal. apply IH. tauto.
Qed.

Lemma added_eq key value (m : omap.OrderedMap K V) :
  omap.wf m ->
  simplelru.added key value m = omap.Delete key m ++ [(key, value)].
Proof.
  intros Hwf. unfold simplelru.added, omap.ToTail.
  destruct (omap.lookup key m) as [w|] eqn:Hl.
  - rewrite Set_app_absent by now apply Delete_gone.
    simpl. destruct (key_eq_dec key key); congruence.
  - apply lookup_none_iff in Hl.
    now rewrite Set_absent, Delete_absent.
Qed.

Lemma added_length_present key value (m : omap.OrderedMap K V) :
  omap.wf m -> In key (omap.Keys m) ->
  omap.Len (simplelru.added key value m) = omap.Len m.
Proof.
  intros Hwf Hi. rewrite added_eq by auto.
  unfold omap.Len, GoInt.len. rewrite length_app. simpl.
  rewrite <- (Delete_length key m Hi). lia.
Qed.

Lemma added_length_absent key value (m : omap.OrderedMap K V) :
  omap.wf m -> ~ In key (omap.Keys m) ->
  omap.Len (simplelru.added key value m) = omap.Len m + 1.
Proof.
  intros Hwf Hn. rewrite added_eq, Delete_absent by auto.
  unfold omap.Len, GoInt.len. rewrite length_app. simpl. lia.
Qed.

Lemma wf_tl (m : omap.OrderedMap K V) : omap.wf m -> omap.wf (tl m).
Proof.
  unfold omap.wf. destruct m as [|e m]; simpl; auto.
  now inversion 1.
Qed.

Lemma tl_subset key (m : omap.OrderedMap K V) :
  In key (omap.Keys (tl m)) -> In key (omap.Keys m).
Proof. destruct m; simpl; auto. Qed.

Lemma tl_not_head (m : omap.OrderedMap K V) e :
  omap.wf m -> hd_error m = Some e -> ~ In (fst e) (omap.Keys (tl m)).
Proof.
  unfold omap.wf. destruct m as [|e' m]; simpl; [discriminate|].
  intros Hnd [= <-]. now inversion Hnd.
Qed.

(** What [Add] leaves behind in a cache with room for one entry. *)
Lemma Add_post key value c :
  simplelru.wf c -> 1 <= simplelru.size c ->
  let c' := snd (simplelru.Add key value c) in
  simplelru.wf c'
  /\ simplelru.size c' = simplelru.size c
  /\ In key (simplelru.Keys c')
  /\ simplelru.Peek key c' = (value, true)
  /\ (forall key', In key' (simplelru.Keys c') ->
                   key' = key \/ In key' (simplelru.Keys c)).
Proof.
  intros Hwf Hsz c'. subst c'.
  unfold simplelru.wf, simplelru.Keys, simplelru.Peek in *.
  rewrite Add_size, Add_items, added_eq by auto.
  set (d := omap.Delete key (simplelru.items c)).
  assert (Hd : omap.wf d) by now apply Delete_wf.
  assert (Hg : ~ In key (omap.Keys d)) by now apply Delete_gone.
  assert (Hsub : forall key', In key' (omap.Keys (d ++ [(key, value)])) ->
                   key' = key \/ In key' (omap.Keys (simplelru.items c))).
  { intros key'. rewrite Keys_app, in_app_iff. simpl.
    intros [Hi|[Hi|[]]]; auto. right. eapply Delete_subset; eauto. }
  destruct (_ >? _) eqn:Hev.
  - assert (Hne : d <> []).
    { intros Hnil. rewrite Hnil in Hev. unfold omap.Len, GoInt.len in Hev.
      simpl in Hev. lia. }
    destruct d as [|e d']; [congruence|]. simpl.
    assert (Hg' : ~ In key (omap.Keys d')) by (simpl in Hg; tauto).
    repeat split; auto.
    + apply wf_snoc; auto. now apply (wf_tl (e :: d')).
    + rewrite Keys_app, in_app_iff. simpl. auto.
    + unfold omap.Get. rewrite lookup_app_absent by auto.
      simpl. destruct (key_eq_dec key key); congruence.
    + intros key' Hi. apply Hsub. simpl. now right.
  - repeat split; auto.
    + now apply wf_snoc.
    + rewrite Keys_app, in_app_iff. simpl. auto.
    + unfold omap.Get. rewrite lookup_app_absent by auto.
      simpl. destruct (key_eq_dec key key); congruence.
Qed.

Lemma Remove_state key c :
  snd (simplelru.Remove key c) = simplelru.removeElement key c
  \/ (snd (simplelru.Remove key c) = c
      /\ ~ In key (simplelru.Keys c)).
Proof.
  unfold simplelru.Remove, simplelru.Peek, simplelru.Keys.
  destruct (omap.Get key (simplelru.items c)) as [v ok] eqn:Hg.
  destruct ok; simpl; auto. right. split; auto.
  rewrite <- Get_found_iff, Hg. simpl. congruence.
Qed.

Lemma Remove_items key c :
  simplelru.items (snd (simplelru.Remove key c))
  = omap.Delete key (simplelru.items c).
Proof.
  destruct (Remove_state key c) as [->|[-> Hn]].
  - apply removeElement_items.
  - symmetry. now apply Delete_absent.
Qed.

Lemma Remove_size key c :
  simplelru.size (snd (simplelru.Remove key c)) = simplelru.size c.
Proof.
  destruct (Remove_state key c) as [->|[-> Hn]]; auto.
  apply removeElement_size.
Qed.

Lemma Remove_present key c :
  fst (simplelru.Remove key c) = simplelru.Contains key c.
Proof.
  unfold simplelru.Remove, simplelru.Peek, simplelru.Contains.
  destruct (omap.Get key (simplelru.items c)) as [v ok]. now destruct ok.
Qed.

Lemma Contains_iff key c :
  simplelru.Contains key c = true <-> In key (simplelru.Keys c).
Proof. apply Get_found_iff. Qed.

Lemma Peek_found key c :
  snd (simplelru.Peek key c) = simplelru.Contains key c.
Proof. reflexivity. Qed.

Lemma Get_items key c :
  simplelru.items (snd (simplelru.Get key c))
  = omap.ToTail key (simplelru.items c).
Proof.
  unfold simplelru.Get, simplelru.Peek.
  destruct (omap.Get key (simplelru.items c)) as [v ok] eqn:Hg.
  destruct ok; simpl; auto.
  symmetry. apply ToTail_absent. rewrite <- Get_found_iff, Hg.
  simpl. congruence.
Qed.

Lemma Get_size key c :
  simplelru.size (snd (simplelru.Get key c)) = simplelru.size c.
Proof.
  unfold simplelru.Get.
  destruct (simplelru.Peek key c) as [v ok]. now destruct ok.
Qed.

Lemma Get_result key c :
  fst (simplelru.Get key c) = simplelru.Peek key c.
Proof.
  unfold simplelru.Get.
  destruct (simplelru.Peek key c) as [v ok]. now destruct ok.
Qed.

Lemma Purge_state (l : omap.OrderedMap K V) cap cb tr :
  exists tr',
    simplelru.Purge (simplelru.mkLRUG cap l cb tr)
    = simplelru.mkLRUG cap [] cb tr'.
Proof.
  unfold simplelru.Purge, omap.Items. cbn [simplelru.items].
  revert tr. induction l as [|[k v] l IH]; intros tr; simpl.
  - now exists tr.
  - destruct cb; unfold simplelru.with_items; simpl;
      destruct (key_eq_dec k k); try congruence; apply IH.
Qed.

Lemma Purge_items c : simplelru.items (simplelru.Purge c) = [].
Proof.
  destruct c as [cap m cb tr].
  destruct (Purge_state m cap cb tr) as [tr' ->]. reflexivity.
Qed.

Lemma Purge_size c : simplelru.size (simplelru.Purge c) = simplelru.size c.
Proof.
  destruct c as [cap m cb tr].
  destruct (Purge_state m cap cb tr) as [tr' ->]. reflexivity.
Qed.

End LRUFacts.

(** ** Capacity, [Resize] and recency order of the bounded ordered cache *)
Section LRUClaims.

Context {K V : Type} `{Comparable K} `{Zero K} `{Zero V}.
Implicit Types (c : simplelru.LRUG K V) (k key : K) (v value : V).

Lemma Len_tl (m : omap.OrderedMap K V) :
  omap.Len (tl m) = Z.max (omap.Len m - 1) 0.
Proof.
  unfold omap.Len, GoInt.len. destruct m; simpl length; lia.
Qed.

Lemma Len_snoc (m : omap.OrderedMap K V) e :
  omap.Len (m ++ [e]) = omap.Len m + 1.
Proof. unfold omap.Len, GoInt.len. rewrite length_app. simpl. lia. Qed.

(** [Add] evicts exactly when a new key meets a full cache, and then drops
    the head of the order. *)
Lemma Add_within_capacity key value c :
  simplelru.wf c -> simplelru.within_capacity c ->
  let r := simplelru.Add key value c in
  (fst r = true <->
   ~ In key (simplelru.Keys c) /\ simplelru.Len c = simplelru.size c)
  /\ simplelru.items (snd r)
     = (if fst r then tl (simplelru.items c ++ [(key, value)])
        else omap.Delete key (simplelru.items c) ++ [(key, value)])
  /\ simplelru.wf (snd r)
  /\ simplelru.within_capacity (snd r).
Proof.
  intros Hwf Hcap r. subst r.
  unfold simplelru.wf, simplelru.within_capacity, simplelru.Len,
    simplelru.Keys in *.
  rewrite Add_evicted, Add_items, Add_size.
  destruct (in_dec key_eq_dec key (omap.Keys (simplelru.items c)))
    as [Hi|Hn].
  - rewrite added_length_present by auto.
    assert (Hf : (omap.Len (simplelru.items c) >? simplelru.size c) = false)
      by lia.
    rewrite Hf, added_eq by auto.
    repeat split; try discriminate; try tauto.
    + apply wf_snoc; [now apply Delete_wf | now apply Delete_gone].
    + rewrite <- (added_eq key value) by auto.
      now rewrite added_length_present.
  - rewrite added_length_absent, added_eq, Delete_absent by auto.
    destruct (_ >? _) eqn:Hev.
    + repeat split; auto; try lia.
      * apply wf_tl. now apply wf_snoc.
      * rewrite Len_tl, Len_snoc. pose proof (len_nonneg (simplelru.items c)).
        unfold omap.Len in *. lia.
    + repeat split; try discriminate; try lia.
      * now apply wf_snoc.
      * rewrite Len_snoc. lia.
Qed.

Lemma resize_loop_items n c :
  simplelru.items (simplelru.resize_loop n c) = skipn n (simplelru.items c).
Proof.
  revert c. induction n as [|n IH]; intros c; simpl; auto.
  rewrite IH, removeOldest_items.
  destruct (simplelru.items c); simpl; auto. apply skipn_nil.
Qed.

Lemma resize_loop_size n c :
  simplelru.size (simplelru.resize_loop n c) = simplelru.size c.
Proof.
  revert c. induction n as [|n IH]; intros c; simpl; auto.
  now rewrite IH, removeOldest_size.
Qed.

Lemma resize_loop_onEvict n c :
  simplelru.onEvict (simplelru.resize_loop n c) = simplelru.onEvict c.
Proof.
  revert c. induction n as [|n IH]; intros c; simpl; auto.
  rewrite IH. unfold simplelru.removeOldest, simplelru.removeElement.
  destruct (omap.GetAt 0 (simplelru.items c)); auto.
  destruct (omap.Pop _ _) as [[e|] m]; simpl; auto.
  destruct (simplelru.onEvict c) eqn:Hcb; simpl; auto.
Qed.

Lemma removeOldest_notified c :
  simplelru.onEvict c = true ->
  simplelru.notified (simplelru.removeOldest c)
  = simplelru.notified c ++ firstn 1 (simplelru.items c).
Proof.
  intros Hcb. unfold simplelru.removeOldest, simplelru.removeElement,
    omap.Pop.
  destruct (simplelru.items c) as [|[k v] m] eqn:Hm; simpl.
  - now rewrite app_nil_r.
  - destruct (key_eq_dec k k); [|congruence]. simpl. now rewrite Hcb.
Qed.

Lemma resize_loop_notified n c :
  simplelru.onEvict c = true ->
  simplelru.notified (simplelru.resize_loop n c)
  = simplelru.notified c ++ firstn n (simplelru.items c).
Proof.
  revert c. induction n as [|n IH]; intros c Hcb; simpl.
  - now rewrite app_nil_r.
  - rewrite IH.
    + rewrite removeOldest_notified, removeOldest_items by auto.
      rewrite <- app_assoc.
      destruct (simplelru.items c); simpl; auto. now rewrite firstn_nil.
    + rewrite <- Hcb. apply (resize_loop_onEvict 1).
Qed.

Lemma skipn_wf n (m : omap.OrderedMap K V) : omap.wf m -> omap.wf (skipn n m).
Proof.
  revert m. induction n as [|n IH]; intros m Hwf; simpl; auto.
  destruct m; auto. apply IH. now apply (wf_tl (i :: m)).
Qed.

(** [Resize] with a capacity that is not negative. *)
Lemma Resize_nonneg sz c :
  0 <= sz <= GoInt.max_int -> simplelru.Len c <= GoInt.max_int ->
  let m := simplelru.Len c in
  let r := simplelru.Resize sz c in
  fst r = Z.max (m - sz) 0
  /\ simplelru.items (snd r)
     = skipn (Z.to_nat (m - sz)) (simplelru.items c)
  /\ simplelru.Len (snd r) = Z.min m sz
  /\ simplelru.size (snd r) = sz
  /\ (simplelru.onEvict c = true ->
      simplelru.notified (snd r)
      = simplelru.notified c
        ++ firstn (Z.to_nat (m - sz)) (simplelru.items c)).
Proof.
  intros Hsz Hlen m r. subst m r. unfold simplelru.Resize.
  pose proof (len_nonneg (simplelru.items c)) as Hpos.
  unfold simplelru.Len, omap.Len in *.
  set (m := GoInt.len (simplelru.items c)) in *.
  assert (Hw : GoInt.sub m sz = m - sz).
  { unfold GoInt.sub. apply wrap_in_range.
    unfold GoInt.in_range, GoInt.min_int, GoInt.max_int in *. lia. }
  rewrite Hw. simpl.
  assert (Hd : (if m - sz <? 0 then 0 else m - sz) = Z.max (m - sz) 0).
  { destruct (m - sz <? 0) eqn:Hlt; lia. }
  rewrite Hd.
  assert (Hn : Z.to_nat (Z.max (m - sz) 0) = Z.to_nat (m - sz)) by lia.
  rewrite Hn, resize_loop_items.
  repeat split; auto.
  - unfold GoInt.len. rewrite length_skipn. subst m. unfold GoInt.len. lia.
  - intros Hcb. now apply resize_loop_notified.
Qed.

Lemma exec_invariant (o : simplelru.op K V) c :
  (forall sz, o = simplelru.OpResize sz -> 0 <= sz <= GoInt.max_int) ->
  simplelru.wf c /\ simplelru.within_capacity c
  /\ simplelru.size c <= GoInt.max_int ->
  simplelru.wf (simplelru.exec o c)
  /\ simplelru.within_capacity (simplelru.exec o c)
  /\ simplelru.size (simplelru.exec o c) <= GoInt.max_int
  /\ simplelru.size (simplelru.exec o c)
     = simplelru.capacity_after (simplelru.size c) [o].
Proof.
  intros Hres (Hwf & Hcap & Hmax).
  unfold simplelru.wf, simplelru.within_capacity, simplelru.Len in *.
  destruct o; unfold simplelru.capacity_after;
    cbn [simplelru.exec fold_left]; auto.
  - rewrite Purge_items, Purge_size. repeat split; auto.
    + constructor.
    + unfold omap.Len, GoInt.len in *. simpl. lia.
  - destruct (Add_within_capacity key value c Hwf Hcap) as (_ & _ & Hw & Hc).
    rewrite Add_size in *. repeat split; auto.
    unfold simplelru.within_capacity in Hc. now rewrite Add_size in Hc.
  - rewrite Get_items, Get_size. repeat split; auto.
    + now apply ToTail_wf.
    + unfold omap.Len, GoInt.len in *. now rewrite ToTail_length.
  - rewrite Remove_items, Remove_size. repeat split; auto.
    + now apply Delete_wf.
    + destruct (in_dec key_eq_dec key (omap.Keys (simplelru.items c))).
      * unfold omap.Len, GoInt.len in *.
        rewrite <- (Delete_length key (simplelru.items c)) in Hcap by auto.
        lia.
      * now rewrite Delete_absent.
  - rewrite RemoveOldest_state, removeOldest_items, removeOldest_size.
    repeat split; auto.
    + now apply wf_tl.
    + rewrite Len_tl. pose proof (len_nonneg (simplelru.items c)).
      unfold omap.Len in *. lia.
  - specialize (Hres sz eq_refl).
    destruct (Resize_nonneg sz c Hres) as (_ & Hi & Hl & Hs & _).
    { unfold simplelru.Len. lia. }
    rewrite Hs, Hi. repeat split; try lia.
    + now apply skipn_wf.
    + unfold simplelru.Len in Hl. rewrite Hi in Hl. lia.
Qed.

Lemma capacity_after_app sz (os1 os2 : list (simplelru.op K V)) :
  simplelru.capacity_after sz (os1 ++ os2)
  = simplelru.capacity_after (simplelru.capacity_after sz os1) os2.
Proof. apply fold_left_app. Qed.

Lemma run_invariant (os : list (simplelru.op K V)) c :
  simplelru.resizes_nonneg os ->
  simplelru.wf c /\ simplelru.within_capacity c
  /\ simplelru.size c <= GoInt.max_int ->
  simplelru.wf (simplelru.run os c)
  /\ simplelru.within_capacity (simplelru.run os c)
  /\ simplelru.size (simplelru.run os c)
     = simplelru.capacity_after (simplelru.size c) os.
Proof.
  revert c. induction os as [|o os IH]; intros c Hres Hinv.
  - simpl. tauto.
  - destruct (exec_invariant o c) as (Hw & Hc & Hm & Hs); auto.
    { intros sz ->. apply Hres. now left. }
    simpl in Hs. change (simplelru.run (o :: os) c)
      with (simplelru.run os (simplelru.exec o c)).
    destruct (IH (simplelru.exec o c)) as (Hw' & Hc' & Hs'); auto.
    { intros sz Hin. apply Hres. now right. }
    repeat split; auto. rewrite Hs', Hs. reflexivity.
Qed.

Lemma NewLRUG_ok sz cb c :
  simplelru.NewLRUG sz cb = Ok c ->
  0 < sz /\ c = simplelru.mkLRUG sz [] cb [].
Proof.
  unfold simplelru.NewLRUG. destruct (sz <=? 0) eqn:Hs; [discriminate|].
  intros [= <-]. split; [lia | reflexivity].
Qed.

(** C6 (amended): on a cache built with capacity C, after every history of
    public calls in which each [Resize] is given a capacity that is not
    negative, [Len()] is at most the current capacity, which is C until a
    [Resize] replaces it; a single [Add] evicts exactly when it inserts a
    new key into a full cache, and what it then drops is one entry, the
    head of the order (the oldest entry). *)
Theorem lru_len_within_capacity C cb c0 (os : list (simplelru.op K V)) :
  C <= GoInt.max_int ->
  simplelru.NewLRUG C cb = Ok c0 ->
  simplelru.resizes_nonneg os ->
  let c := simplelru.run os c0 in
  simplelru.size c = simplelru.capacity_after C os
  /\ simplelru.Len c <= simplelru.size c
  /\ forall key value,
       let r := simplelru.Add key value c in
       (fst r = true <->
        ~ In key (simplelru.Keys c) /\ simplelru.Len c = simplelru.size c)
       /\ simplelru.items (snd r)
          = (if fst r then tl (simplelru.items c ++ [(key, value)])
             else omap.Delete key (simplelru.items c) ++ [(key, value)])
       /\ (fst r = true -> 1 <= simplelru.size c ->
           exists k0 v0,
             simplelru.GetOldest c = (k0, v0, true)
             /\ simplelru.items c = (k0, v0) :: tl (simplelru.items c)
             /\ simplelru.items (snd r)
                = tl (simplelru.items c) ++ [(key, value)])
       /\ simplelru.Len (snd r) <= simplelru.size (snd r).
Proof.
  intros HC Hnew Hres c.
  apply NewLRUG_ok in Hnew as [Hpos ->].
  destruct (run_invariant os (simplelru.mkLRUG C [] cb []) Hres)
    as (Hwf & Hcap & Hsz).
  { repeat split; simpl; auto.
    - constructor.
    - unfold simplelru.within_capacity, simplelru.Len, omap.Len, GoInt.len.
      simpl. lia. }
  fold c in Hwf, Hcap, Hsz. simpl in Hsz.
  split; [exact Hsz|]. split; [exact Hcap|].
  intros key value r. subst r.
  destruct (Add_within_capacity key value c Hwf Hcap)
    as (Hiff & Hit & _ & Hcap').
  split; [exact Hiff|]. split; [exact Hit|]. split; [|exact Hcap'].
  intros Hev Hone.
  rewrite Hev in Hit. apply Hiff in Hev as [Hn Hfull].
  unfold simplelru.GetOldest, simplelru.Len, omap.Len, GoInt.len in *.
  destruct (simplelru.items c) as [|[k0 v0] m] eqn:Hm.
  - simpl in Hfull. lia.
  - exists k0, v0. simpl. repeat split; auto.
Qed.

Lemma Add_fresh key value c :
  ~ In key (simplelru.Keys c) -> simplelru.Len c < simplelru.size c ->
  simplelru.Add key value c
  = (false, simplelru.with_items c (simplelru.items c ++ [(key, value)])).
Proof.
  unfold simplelru.Keys, simplelru.Len, simplelru.Add. intros Hn Hlt.
  assert (Hg : snd (omap.Get key (simplelru.items c)) = false).
  { destruct (snd (omap.Get key (simplelru.items c))) eqn:Hg; auto.
    apply Get_found_iff in Hg. contradiction. }
  rewrite Hg, Set_absent by auto. simpl. rewrite Len_snoc.
  assert (Hf : (omap.Len (simplelru.items c) + 1 >? simplelru.size c)
               = false) by lia.
  now rewrite Hf.
Qed.

(** C7 (amended): on a cache holding m entries, [Resize(n)] with a capacity
    n that is not negative returns max(m - n, 0), leaves [Len() = min(m, n)]
    and the capacity n, and removes the m - n oldest entries, oldest first:
    what stays is the order without its first m - n entries, and the
    callback, when there is one, is called on those entries in that
    order. *)
Theorem Resize_evicts_oldest_first sz c :
  0 <= sz <= GoInt.max_int ->
  simplelru.Len c <= GoInt.max_int ->
  fst (simplelru.Resize sz c) = Z.max (simplelru.Len c - sz) 0
  /\ simplelru.Len (snd (simplelru.Resize sz c))
     = Z.min (simplelru.Len c) sz
  /\ simplelru.items (snd (simplelru.Resize sz c))
     = skipn (Z.to_nat (simplelru.Len c - sz)) (simplelru.items c)
  /\ simplelru.size (snd (simplelru.Resize sz c)) = sz
  /\ (simplelru.onEvict c = true ->
      simplelru.notified (snd (simplelru.Resize sz c))
      = simplelru.notified c
        ++ firstn (Z.to_nat (simplelru.Len c - sz)) (simplelru.items c)).
Proof.
  intros Hsz Hlen.
  destruct (Resize_nonneg sz c Hsz Hlen) as (Hr & Hi & Hl & Hs & Hn).
  auto.
Qed.

(** C8: [Get] returns the stored value and whether the key was found; on a
    hit the entry moves to the most-recently-used end of the order and
    nothing else changes, on a miss the cache is left as it was; so after
    [Add(k1,v1); Add(k2,v2); Get(k1)] on a new cache of capacity at least
    2, [Keys()] is [k2; k1]. *)
Theorem Get_promotes_to_newest key c :
  fst (simplelru.Get key c) = simplelru.Peek key c
  /\ (forall v c', simplelru.Get key c = (v, true, c') ->
      omap.lookup key (simplelru.items c) = Some v
      /\ c' = simplelru.with_items c
                (omap.Delete key (simplelru.items c) ++ [(key, v)])
      /\ last (simplelru.Keys c') key = key)
  /\ (forall v c', simplelru.Get key c = (v, false, c') ->
      ~ In key (simplelru.Keys c) /\ c' = c)
  /\ (forall C cb c0 k1 v1 k2 v2,
        2 <= C -> k1 <> k2 -> simplelru.NewLRUG C cb = Ok c0 ->
        simplelru.Keys
          (simplelru.run
             [simplelru.OpAdd k1 v1; simplelru.OpAdd k2 v2;
              simplelru.OpGet k1] c0)
        = [k2; k1]).
Proof.
  split; [apply Get_result|].
  unfold simplelru.Get, simplelru.Peek, omap.Get, omap.ToTail,
    simplelru.Keys.
  split; [|split].
  - intros v c'.
    destruct (omap.lookup key (simplelru.items c)) as [w|] eqn:Hl;
      [|discriminate].
    intros [= <- <-]. repeat split; auto.
    simpl. rewrite Keys_app. apply last_last.
  - intros v c'.
    destruct (omap.lookup key (simplelru.items c)) as [w|] eqn:Hl;
      [discriminate|].
    intros [= <- <-]. split; auto. now apply lookup_none_iff.
  - intros C cb c0 k1 v1 k2 v2 HC Hne Hnew.
    apply NewLRUG_ok in Hnew as [_ ->].
    unfold simplelru.run, simplelru.exec. cbn [fold_left].
    rewrite (Add_fresh k1 v1 (simplelru.mkLRUG C [] cb []));
      cbn [snd simplelru.with_items simplelru.items
        simplelru.size simplelru.onEvict simplelru.notified app];
      [|simpl; intros []
       |unfold simplelru.Len, omap.Len, GoInt.len; simpl; lia].
    rewrite Add_fresh; cbn [snd simplelru.with_items simplelru.items
      simplelru.size simplelru.onEvict simplelru.notified app].
    + unfold simplelru.Get, simplelru.Peek, omap.Get, omap.ToTail.
      simpl. destruct (key_eq_dec k1 k1) as [_|]; [|congruence].
      simpl. destruct (key_eq_dec k1 k1) as [_|]; [|congruence].
      reflexivity.
    + simpl. intros [|[]]. congruence.
    + unfold simplelru.Len, omap.Len, GoInt.len. simpl. lia.
Qed.

End LRUClaims.

(** Concrete runs of the bounded ordered cache, on integer keys and
    values. *)

(** The capacity bound on a run that shrinks a cache of capacity 2 to 1
    between two [Add]s. *)
Lemma lru_len_within_capacity_witness :
  simplelru.Len
    (simplelru.run
       [simplelru.OpAdd 1 10; simplelru.OpAdd 2 20; simplelru.OpResize 1;
        simplelru.OpAdd 3 30]
       (simplelru.mkLRUG 2 [] true []))
  <= 1.
Proof.
  pose proof (lru_len_within_capacity (K:=Z) (V:=Z) 2 true
                (simplelru.mkLRUG 2 [] true [])
                [simplelru.OpAdd 1 10; simplelru.OpAdd 2 20;
                 simplelru.OpResize 1; simplelru.OpAdd 3 30]) as Hthm.
  assert (H2 : 2 <= GoInt.max_int) by (unfold GoInt.max_int; lia).
  assert (Hres : simplelru.resizes_nonneg
                   [simplelru.OpAdd (K:=Z) (V:=Z) 1 10;
                    simplelru.OpAdd 2 20; simplelru.OpResize 1;
                    simplelru.OpAdd 3 30]).
  { intros sz [Hi|[Hi|[Hi|[Hi|[]]]]]; try discriminate.
    injection Hi as <-. unfold GoInt.max_int. lia. }
  destruct (Hthm H2 eq_refl Hres) as (Hsz & Hlen & _).
  rewrite Hsz in Hlen. exact Hlen.
Defined.

(** C6, as stated, fails once [Resize] is among the calls: a cache built
    with capacity 1 holds two entries after [Resize(2)] and two [Add]s, and
    after [Resize(-1)] its entry count, 0, is above its capacity. *)
Lemma lru_len_exceeds_built_capacity :
  simplelru.NewLRUG (K:=Z) (V:=Z) 1 false
  = Ok (simplelru.mkLRUG 1 [] false [])
  /\ simplelru.Len
       (simplelru.run
          [simplelru.OpResize 2; simplelru.OpAdd 1 10; simplelru.OpAdd 2 20]
          (simplelru.mkLRUG (K:=Z) (V:=Z) 1 [] false []))
     = 2
  /\ ~ simplelru.Len
         (simplelru.run
            [simplelru.OpResize 2; simplelru.OpAdd 1 10;
             simplelru.OpAdd 2 20]
            (simplelru.mkLRUG (K:=Z) (V:=Z) 1 [] false []))
       <= 1
  /\ ~ simplelru.within_capacity
         (simplelru.run [simplelru.OpResize (-1)]
            (simplelru.mkLRUG (K:=Z) (V:=Z) 1 [] false [])).
Proof.
  repeat split.
  - vm_compute. intros Hle. now apply Hle.
  - unfold simplelru.within_capacity. vm_compute. intros Hle. now apply Hle.
Qed.

(** [Resize(1)] on three entries: two evictions, keys 1 then 2, key 3
    stays. *)
Lemma Resize_evicts_oldest_first_witness :
  let c := simplelru.mkLRUG (K:=Z) (V:=Z) 3 [(1, 10); (2, 20); (3, 30)]
             true [] in
  fst (simplelru.Resize 1 c) = 2
  /\ simplelru.Len (snd (simplelru.Resize 1 c)) = 1
  /\ simplelru.items (snd (simplelru.Resize 1 c)) = [(3, 30)]
  /\ simplelru.size (snd (simplelru.Resize 1 c)) = 1
  /\ (true = true ->
      simplelru.notified (snd (simplelru.Resize 1 c)) = [(1, 10); (2, 20)]).
Proof.
  intros c.
  assert (Hsz : 0 <= 1 <= GoInt.max_int) by (unfold GoInt.max_int; lia).
  assert (Hlen : simplelru.Len c <= GoInt.max_int)
    by (vm_compute; discriminate).
  exact (Resize_evicts_oldest_first 1 c Hsz Hlen).
Defined.

(** C7, as stated, fails for a negative capacity: on a cache holding one
    entry [Resize(-1)] returns 2 after a single eviction and leaves
    [Len() = 0], which is not min(1, -1). *)
Lemma Resize_negative_capacity :
  let c := simplelru.run [simplelru.OpAdd 1 10]
             (simplelru.mkLRUG (K:=Z) (V:=Z) 2 [] true []) in
  simplelru.Len c = 1
  /\ fst (simplelru.Resize (-1) c) = 2
  /\ simplelru.notified (snd (simplelru.Resize (-1) c)) = [(1, 10)]
  /\ simplelru.Len (snd (simplelru.Resize (-1) c)) = 0
  /\ simplelru.Len (snd (simplelru.Resize (-1) c))
     <> Z.min (simplelru.Len c) (-1).
Proof.
  vm_compute. repeat split; discriminate.
Qed.

(** The recency example on keys 1 and 2 and capacity 2. *)
Lemma Get_promotes_to_newest_witness :
  simplelru.Keys
    (simplelru.run
       [simplelru.OpAdd 1 10; simplelru.OpAdd 2 20; simplelru.OpGet 1]
       (simplelru.mkLRUG (K:=Z) (V:=Z) 2 [] false []))
  = [2; 1].
Proof.
  destruct (Get_promotes_to_newest (K:=Z) (V:=Z) 1
              (simplelru.mkLRUG 2 [] false [])) as (_ & _ & _ & Hex).
  apply (Hex 2 false).
  - lia.
  - discriminate.
  - reflexivity.
Defined.

(** ** The two-queue cache: what the pools' operations do to membership *)
Section PoolFacts.

Context {K V : Type} `{Comparable K} `{Zero K} `{Zero V}.
Implicit Types (p : simplelru.LRUG K V) (k key : K) (v value : V).

Lemma pool_Remove key p :
  simplelru.wf p ->
  let p' := snd (simplelru.Remove key p) in
  simplelru.wf p'
  /\ simplelru.size p' = simplelru.size p
  /\ ~ lru.holds key p'
  /\ (forall k, lru.holds k p' -> lru.holds k p)
  /\ (forall k, k <> key -> lru.holds k p -> lru.holds k p').
Proof.
  intros Hwf p'. subst p'.
  unfold lru.holds, simplelru.wf, simplelru.Keys in *.
  rewrite Remove_items, Remove_size.
  repeat split.
  - now apply Delete_wf.
  - now apply Delete_gone.
  - intros k. apply Delete_subset.
  - intros k. apply Delete_other.
Qed.

Lemma pool_RemoveOldest p :
  simplelru.wf p ->
  let p' := snd (simplelru.RemoveOldest p) in
  simplelru.wf p'
  /\ simplelru.size p' = simplelru.size p
  /\ simplelru.items p' = tl (simplelru.items p)
  /\ (forall k, lru.holds k p' -> lru.holds k p).
Proof.
  intros Hwf p'. subst p'.
  unfold lru.holds, simplelru.wf, simplelru.Keys in *.
  rewrite RemoveOldest_state, removeOldest_items, removeOldest_size.
  repeat split.
  - now apply wf_tl.
  - intros k. apply tl_subset.
Qed.

Lemma pool_Get key p :
  simplelru.wf p ->
  let p' := snd (simplelru.Get key p) in
  simplelru.wf p'
  /\ simplelru.size p' = simplelru.size p
  /\ (forall k, lru.holds k p' <-> lru.holds k p).
Proof.
  intros Hwf p'. subst p'.
  unfold lru.holds, simplelru.wf, simplelru.Keys in *.
  rewrite Get_items, Get_size.
  repeat split; try apply ToTail_in.
  now apply ToTail_wf.
Qed.

Lemma pool_Purge p :
  simplelru.wf (simplelru.Purge p)
  /\ simplelru.size (simplelru.Purge p) = simplelru.size p
  /\ (forall k, ~ lru.holds k (simplelru.Purge p)).
Proof.
  unfold lru.holds, simplelru.wf, simplelru.Keys.
  rewrite Purge_items, Purge_size. repeat split.
  - constructor.
  - intros k [].
Qed.

Lemma pool_Get_miss key p :
  ~ lru.holds key p -> simplelru.Get key p = (zero, false, p).
Proof.
  unfold lru.holds, simplelru.Keys, simplelru.Get, simplelru.Peek, omap.Get.
  intros Hn. apply lookup_none_iff in Hn. now rewrite Hn.
Qed.

Lemma pool_Peek_miss key p :
  ~ lru.holds key p -> simplelru.Peek key p = (zero, false).
Proof.
  unfold lru.holds, simplelru.Keys, simplelru.Peek, omap.Get.
  intros Hn. apply lookup_none_iff in Hn. now rewrite Hn.
Qed.

Lemma pool_Peek_hit key p :
  lru.holds key p -> exists v, simplelru.Peek key p = (v, true).
Proof.
  unfold lru.holds, simplelru.Keys, simplelru.Peek, omap.Get.
  intros Hi. destruct (in_lookup_some key _ Hi) as [v ->]. eauto.
Qed.

Lemma pool_Contains_false key p :
  simplelru.Contains key p = false <-> ~ lru.holds key p.
Proof.
  unfold lru.holds. rewrite <- Contains_iff.
  destruct (simplelru.Contains key p); split; congruence.
Qed.

Lemma pool_Contains_true key p :
  simplelru.Contains key p = true <-> lru.holds key p.
Proof. apply Contains_iff. Qed.

End PoolFacts.

(** ** The two-queue cache: the invariant of its histories *)
Section TwoQueueFacts.

Context {K V : Type} `{Comparable K} `{Zero K} `{Zero V}.
Implicit Types (c : lru.TwoQueueCacheG K V) (k key x : K) (v value : V).

(** The three ways through [ensureSpace]. *)
Lemma ensureSpace_cases hint c :
((GoInt.add (simplelru.Len (lru.recent c)) (simplelru.Len (lru.frequent c))
     <? lru.size c) = true
   /\ lru.ensureSpace hint c = c)
  \/ (lru.evicts_from_recent hint c = true
      /\ exists e,
          hd_error (simplelru.items (lru.recent c)) = Some e
          /\ lru.ensureSpace hint c
             = lru.with_recentEvict
                 (lru.with_recent c (snd (simplelru.RemoveOldest (lru.recent c))))
                 (snd (simplelru.Add (fst e) zero (lru.recentEvict c))))
  \/ (lru.evicts_from_recent hint c = false
      /\ lru.ensureSpace hint c
         = lru.with_frequent c (snd (simplelru.RemoveOldest (lru.frequent c)))).
Proof.
  unfold lru.ensureSpace, lru.evicts_from_recent.
  destruct (GoInt.add _ _ <? lru.size c); [left; auto|].
  cbn [negb andb].
  destruct ((simplelru.Len (lru.recent c) >? 0) && _) eqn:Hb.
  - right; left. split; auto.
    apply andb_true_iff in Hb as [Hpos _].
    unfold simplelru.Len, omap.Len, GoInt.len, simplelru.RemoveOldest in *.
    rewrite GetAt_0.
    destruct (simplelru.items (lru.recent c)) as [|e m] eqn:Hm;
      [simpl in Hpos; lia|].
    exists e. split; auto.
  - right; right. auto.
Qed.

Lemma ensureSpace_inv hint c : lru.inv c -> lru.inv (lru.ensureSpace hint c).
Proof.
  intros Hinv.
  destruct (ensureSpace_cases hint c) as [[_ ->]|[(_ & e & He & ->)|[_ ->]]];
    auto.
  - destruct Hinv as [Hrw Hfw Hgw Hrs Hfs Hgs Hrf Hrg Hfg].
    destruct (pool_RemoveOldest (lru.recent c) Hrw) as (Hw' & Hs' & Hi' & Hsub).
    destruct (Add_post (fst e) zero (lru.recentEvict c) Hgw Hgs)
      as (Hgw' & Hgs' & Hin & _ & Hgsub).
    assert (Hhead : lru.holds (fst e) (lru.recent c)).
    { unfold lru.holds, simplelru.Keys.
      destruct (simplelru.items (lru.recent c)); [discriminate|].
      injection He as ->. now left. }
    assert (Hgone : ~ lru.holds (fst e)
                      (snd (simplelru.RemoveOldest (lru.recent c)))).
    { unfold lru.holds, simplelru.Keys. rewrite Hi'.
      now apply tl_not_head. }
    constructor; simpl; [exact Hw'|exact Hfw|exact Hgw'|lia|lia|lia| | | ].
    + intros k Hk. apply Hrf. auto.
    + intros k Hk Hg. apply Hgsub in Hg as [->|Hg]; [contradiction|].
      apply (Hrg k); auto.
    + intros k Hk Hg. apply Hgsub in Hg as [->|Hg].
      * apply (Hrf (fst e)); auto.
      * apply (Hfg k); auto.
  - destruct Hinv as [Hrw Hfw Hgw Hrs Hfs Hgs Hrf Hrg Hfg].
    destruct (pool_RemoveOldest (lru.frequent c) Hfw) as (Hw' & Hs' & _ & Hsub).
    constructor; simpl; [exact Hrw|exact Hw'|exact Hgw|lia|lia|lia| | | ].
    + intros k Hk Hf. apply (Hrf k); auto.
    + exact Hrg.
    + intros k Hk. apply Hfg. auto.
Qed.

(** [ensureSpace] brings no key into [recent] or [frequent], and a key it
    brings into the ghost pool comes from [recent]. *)
Lemma ensureSpace_holds hint c k :
  lru.inv c ->
  (lru.holds k (lru.recent (lru.ensureSpace hint c)) ->
   lru.holds k (lru.recent c))
  /\ (lru.holds k (lru.frequent (lru.ensureSpace hint c)) ->
      lru.holds k (lru.frequent c))
  /\ (lru.holds k (lru.recentEvict (lru.ensureSpace hint c)) ->
      lru.holds k (lru.recentEvict c) \/ lru.holds k (lru.recent c)).
Proof.
  intros Hinv.
  destruct (ensureSpace_cases hint c) as [[_ ->]|[(_ & e & He & ->)|[_ ->]]];
    auto.
  - destruct Hinv as [Hrw Hfw Hgw Hrs Hfs Hgs Hrf Hrg Hfg].
    destruct (pool_RemoveOldest (lru.recent c) Hrw) as (_ & _ & _ & Hsub).
    destruct (Add_post (fst e) zero (lru.recentEvict c) Hgw Hgs)
      as (_ & _ & _ & _ & Hgsub).
    simpl. repeat split; auto.
    intros Hg. apply Hgsub in Hg as [->|Hg]; auto.
    right. unfold lru.holds, simplelru.Keys.
    destruct (simplelru.items (lru.recent c)); [discriminate|].
    injection He as ->. now left.
  - destruct Hinv as [Hrw Hfw Hgw Hrs Hfs Hgs Hrf Hrg Hfg].
    destruct (pool_RemoveOldest (lru.frequent c) Hfw) as (_ & _ & _ & Hsub).
    simpl. repeat split; auto.
Qed.

Lemma removeOldest_size_state (p : simplelru.LRUG K V) :
  simplelru.size (snd (simplelru.RemoveOldest p)) = simplelru.size p.
Proof. rewrite RemoveOldest_state. apply removeOldest_size. Qed.

Lemma ensureSpace_size_field hint c :
  lru.size (lru.ensureSpace hint c) = lru.size c.
Proof.
  destruct (ensureSpace_cases hint c)
    as [[_ ->]|[(_ & e & _ & ->)|[_ ->]]]; reflexivity.
Qed.

Lemma Add_size_field key value c :
  lru.size (lru.Add key value c) = lru.size c.
Proof.
  unfold lru.Add.
  destruct (simplelru.Contains key (lru.frequent c)); auto.
  destruct (simplelru.Contains key (lru.recent c)); auto.
  destruct (simplelru.Contains key (lru.recentEvict c)); simpl;
    apply ensureSpace_size_field.
Qed.

Lemma Remove_size_field key c : lru.size (lru.Remove key c) = lru.size c.
Proof.
  unfold lru.Remove.
  destruct (simplelru.Remove key (lru.frequent c)) as [[] f]; simpl; auto.
  destruct (simplelru.Remove key (lru.recent c)) as [[] r]; simpl; auto.
  destruct (simplelru.Remove key (lru.recentEvict c)) as [[] g]; simpl; auto.
Qed.

Lemma with_frequent_same c : lru.with_frequent c (lru.frequent c) = c.
Proof. now destruct c. Qed.

Lemma with_recent_same c : lru.with_recent c (lru.recent c) = c.
Proof. now destruct c. Qed.

Lemma with_recentEvict_same c :
  lru.with_recentEvict c (lru.recentEvict c) = c.
Proof. now destruct c. Qed.

(** The three ways through [Get]. *)
Lemma Get_cases key c :
  (lru.holds key (lru.frequent c)
   /\ exists v,
       simplelru.Peek key (lru.frequent c) = (v, true)
       /\ lru.Get key c
          = (v, true,
             lru.with_frequent c (snd (simplelru.Get key (lru.frequent c)))))
  \/ (~ lru.holds key (lru.frequent c) /\ lru.holds key (lru.recent c)
      /\ exists v,
          simplelru.Peek key (lru.recent c) = (v, true)
          /\ lru.Get key c
             = (v, true,
                lru.with_frequent
                  (lru.with_recent c
                     (snd (simplelru.Remove key (lru.recent c))))
                  (snd (simplelru.Add key v (lru.frequent c)))))
  \/ (~ lru.holds key (lru.frequent c) /\ ~ lru.holds key (lru.recent c)
      /\ lru.Get key c = (zero, false, c)).
Proof.
  unfold lru.Get.
  destruct (simplelru.Contains key (lru.frequent c)) eqn:Hf.
  - left. apply pool_Contains_true in Hf. split; auto.
    destruct (pool_Peek_hit key _ Hf) as [v Hv]. exists v. split; auto.
    pose proof (Get_result key (lru.frequent c)) as Hr. rewrite Hv in Hr.
    destruct (simplelru.Get key (lru.frequent c)) as [[v' ok] f].
    simpl in Hr. injection Hr as -> ->. reflexivity.
  - apply pool_Contains_false in Hf.
    rewrite (pool_Get_miss key _ Hf), with_frequent_same.
    destruct (simplelru.Contains key (lru.recent c)) eqn:Hr.
    + right; left. apply pool_Contains_true in Hr. repeat split; auto.
      destruct (pool_Peek_hit key _ Hr) as [v Hv]. exists v. split; auto.
      now rewrite Hv.
    + right; right. apply pool_Contains_false in Hr. repeat split; auto.
      now rewrite (pool_Peek_miss key _ Hr).
Qed.

Lemma Get_inv key c : lru.inv c -> lru.inv (snd (lru.Get key c)).
Proof.
  intros Hinv. pose proof Hinv as [Hrw Hfw Hgw Hrs Hfs Hgs Hrf Hrg Hfg].
  destruct (Get_cases key c)
    as [(Hf & v & _ & ->)|[(Hnf & Hr & v & _ & ->)|(_ & _ & ->)]]; auto.
  - destruct (pool_Get key (lru.frequent c) Hfw) as (Hw' & Hs' & Hiff).
    constructor; simpl; [exact Hrw|exact Hw'|exact Hgw|lia|lia|lia| | | ].
    + intros k Hk Hk'. apply Hiff in Hk'. apply (Hrf k); auto.
    + exact Hrg.
    + intros k Hk. apply Hiff in Hk. now apply Hfg.
  - destruct (pool_Remove key (lru.recent c) Hrw)
      as (Hw' & Hs' & Hgone & Hsub & _).
    destruct (Add_post key v (lru.frequent c) Hfw Hfs)
      as (Hfw' & Hfs' & _ & _ & Hfsub).
    constructor; simpl; [exact Hw'|exact Hfw'|exact Hgw|lia|lia|lia| | | ].
    + intros k Hk Hk'. apply Hfsub in Hk' as [->|Hk']; [contradiction|].
      apply (Hrf k); auto.
    + intros k Hk. apply Hrg. auto.
    + intros k Hk. apply Hfsub in Hk as [->|Hk]; [now apply Hrg|].
      now apply Hfg.
Qed.

Lemma Add_inv key value c : lru.inv c -> lru.inv (lru.Add key value c).
Proof.
  intros Hinv. pose proof Hinv as [Hrw Hfw Hgw Hrs Hfs Hgs Hrf Hrg Hfg].
  unfold lru.Add.
  destruct (simplelru.Contains key (lru.frequent c)) eqn:Hf;
    [|destruct (simplelru.Contains key (lru.recent c)) eqn:Hr;
      [|destruct (simplelru.Contains key (lru.recentEvict c)) eqn:Hg]].
  - apply pool_Contains_true in Hf.
    destruct (Add_post key value (lru.frequent c) Hfw Hfs)
      as (Hfw' & Hfs' & _ & _ & Hfsub).
    constructor; simpl; [exact Hrw|exact Hfw'|exact Hgw|lia|lia|lia| | | ].
    + intros k Hk Hk'. apply Hfsub in Hk' as [->|Hk']; apply (Hrf _ Hk); auto.
    + exact Hrg.
    + intros k Hk. apply Hfsub in Hk as [->|Hk]; now apply Hfg.
  - apply pool_Contains_true in Hr.
    destruct (pool_Remove key (lru.recent c) Hrw)
      as (Hw' & Hs' & Hgone & Hsub & _).
    destruct (Add_post key value (lru.frequent c) Hfw Hfs)
      as (Hfw' & Hfs' & _ & _ & Hfsub).
    constructor; simpl; [exact Hw'|exact Hfw'|exact Hgw|lia|lia|lia| | | ].
    + intros k Hk Hk'. apply Hfsub in Hk' as [->|Hk']; [contradiction|].
      apply (Hrf k); auto.
    + intros k Hk. apply Hrg. auto.
    + intros k Hk. apply Hfsub in Hk as [->|Hk]; [now apply Hrg|].
      now apply Hfg.
  - apply pool_Contains_false in Hf, Hr.
    pose proof (ensureSpace_inv true c Hinv)
      as [Hrw1 Hfw1 Hgw1 Hrs1 Hfs1 Hgs1 Hrf1 Hrg1 Hfg1].
    destruct (ensureSpace_holds true c key Hinv) as (Hkr & Hkf & _).
    set (c1 := lru.ensureSpace true c) in *.
    destruct (pool_Remove key (lru.recentEvict c1) Hgw1)
      as (Hw' & Hs' & Hgone & Hsub & _).
    destruct (Add_post key value (lru.frequent c1) Hfw1 Hfs1)
      as (Hfw' & Hfs' & _ & _ & Hfsub).
    constructor; simpl; [exact Hrw1|exact Hfw'|exact Hw'|lia|lia|lia| | | ].
    + intros k Hk Hk'. apply Hfsub in Hk' as [->|Hk']; [tauto|].
      apply (Hrf1 k); auto.
    + intros k Hk Hk'. apply (Hrg1 k); auto.
    + intros k Hk Hk'. apply Hfsub in Hk as [->|Hk]; [contradiction|].
      apply (Hfg1 k); auto.
  - apply pool_Contains_false in Hf, Hr, Hg.
    pose proof (ensureSpace_inv false c Hinv)
      as [Hrw1 Hfw1 Hgw1 Hrs1 Hfs1 Hgs1 Hrf1 Hrg1 Hfg1].
    destruct (ensureSpace_holds false c key Hinv) as (Hkr & Hkf & Hkg).
    set (c1 := lru.ensureSpace false c) in *.
    destruct (Add_post key value (lru.recent c1) Hrw1 Hrs1)
      as (Hrw' & Hrs' & _ & _ & Hrsub).
    constructor; simpl; [exact Hrw'|exact Hfw1|exact Hgw1|lia|lia|lia| | | ].
    + intros k Hk Hk'. apply Hrsub in Hk as [->|Hk]; [tauto|].
      apply (Hrf1 k); auto.
    + intros k Hk Hk'. apply Hrsub in Hk as [->|Hk]; [tauto|].
      apply (Hrg1 k); auto.
    + exact Hfg1.
Qed.

Lemma Remove_inv key c : lru.inv c -> lru.inv (lru.Remove key c).
Proof.
  intros Hinv. pose proof Hinv as [Hrw Hfw Hgw Hrs Hfs Hgs Hrf Hrg Hfg].
  unfold lru.Remove.
  destruct (pool_Remove key (lru.frequent c) Hfw)
    as (Hfw' & Hfs' & _ & Hfsub & _).
  destruct (pool_Remove key (lru.recent c) Hrw)
    as (Hrw' & Hrs' & _ & Hrsub & _).
  destruct (pool_Remove key (lru.recentEvict c) Hgw)
    as (Hgw' & Hgs' & _ & Hgsub & _).
  pose proof (Remove_present key (lru.frequent c)) as Hpf.
  pose proof (Remove_state key (lru.frequent c)) as Hsf.
  destruct (simplelru.Remove key (lru.frequent c)) as [pf f] eqn:Hf.
  simpl in *. destruct pf.
  - constructor; simpl; [exact Hrw|exact Hfw'|exact Hgw|lia|lia|lia| | | ].
    + intros k Hk Hk'. apply (Hrf k); auto.
    + exact Hrg.
    + intros k Hk. apply Hfg. auto.
  - assert (Hfeq : f = lru.frequent c).
    { destruct Hsf as [Hsf|[Hsf _]]; auto.
      symmetry in Hpf. apply pool_Contains_false in Hpf.
      rewrite Hsf. unfold simplelru.removeElement, omap.Pop.
      unfold lru.holds, simplelru.Keys in Hpf.
      apply lookup_none_iff in Hpf. rewrite Hpf.
      now destruct (lru.frequent c). }
    subst f. rewrite with_frequent_same.
    pose proof (Remove_present key (lru.recent c)) as Hpr.
    pose proof (Remove_state key (lru.recent c)) as Hsr.
    destruct (simplelru.Remove key (lru.recent c)) as [pr r] eqn:Hr.
    simpl in *. destruct pr.
    + constructor; simpl; [exact Hrw'|exact Hfw|exact Hgw|lia|lia|lia| | | ].
      * intros k Hk. apply Hrf. auto.
      * intros k Hk. apply Hrg. auto.
      * exact Hfg.
    + assert (Hreq : r = lru.recent c).
      { destruct Hsr as [Hsr|[Hsr _]]; auto.
        symmetry in Hpr. apply pool_Contains_false in Hpr.
        rewrite Hsr. unfold simplelru.removeElement, omap.Pop.
        unfold lru.holds, simplelru.Keys in Hpr.
        apply lookup_none_iff in Hpr. rewrite Hpr.
        now destruct (lru.recent c). }
      subst r. rewrite with_recent_same.
      destruct (simplelru.Remove key (lru.recentEvict c)) as [pg g] eqn:Hg.
      simpl in *.
      assert (Hi : lru.inv (lru.with_recentEvict c g)).
      { constructor; simpl; [exact Hrw|exact Hfw|exact Hgw'|lia|lia|lia| | | ].
        - exact Hrf.
        - intros k Hk Hk'. apply (Hrg k); auto.
        - intros k Hk Hk'. apply (Hfg k); auto. }
      now destruct pg.
Qed.

Lemma Purge_inv c : lru.inv c -> lru.inv (lru.Purge c).
Proof.
  intros [Hrw Hfw Hgw Hrs Hfs Hgs Hrf Hrg Hfg]. unfold lru.Purge.
  destruct (pool_Purge (lru.recent c)) as (Hr1 & Hr2 & Hr3).
  destruct (pool_Purge (lru.frequent c)) as (Hf1 & Hf2 & Hf3).
  destruct (pool_Purge (lru.recentEvict c)) as (Hg1 & Hg2 & Hg3).
  constructor; simpl; [exact Hr1|exact Hf1|exact Hg1|lia|lia|lia| | | ].
  - intros k Hk. now apply Hr3 in Hk.
  - intros k Hk. now apply Hr3 in Hk.
  - intros k Hk. now apply Hf3 in Hk.
Qed.

Lemma exec_inv (o : lru.op K V) c : lru.inv c -> lru.inv (lru.exec o c).
Proof.
  destruct o; simpl; auto using Get_inv, Add_inv, Remove_inv, Purge_inv.
Qed.

Lemma run_inv (os : list (lru.op K V)) c :
  lru.inv c -> lru.inv (lru.run os c).
Proof.
  revert c. induction os as [|o os IH]; intros c Hinv; simpl; auto.
  apply IH. now apply exec_inv.
Qed.

(** What a successful construction returns. *)
Lemma New2QParamsG_ok sz recentRatio ghostRatio c :
  lru.New2QParamsG sz recentRatio ghostRatio = Ok c ->
  let evictSize :=
    Float64.to_int (Float64.mul (Float64.of_int sz) ghostRatio) in
  0 < sz /\ 0 < evictSize
  /\ c = lru.mkTwoQueueCacheG sz
           (Float64.to_int (Float64.mul (Float64.of_int sz) recentRatio))
           (simplelru.mkLRUG sz [] false [])
           (simplelru.mkLRUG sz [] false [])
           (simplelru.mkLRUG evictSize [] false []).
Proof.
  unfold lru.New2QParamsG, simplelru.NewLRUG, bind.
  destruct (sz <=? 0) eqn:Hs; [discriminate|].
  destruct (_ || _); [discriminate|].
  destruct (_ || _); [discriminate|].
  destruct (Float64.to_int (Float64.mul (Float64.of_int sz) ghostRatio)
            <=? 0) eqn:He; [discriminate|].
  intros [= <-]. repeat split; lia.
Qed.

Lemma New2QParamsG_inv sz recentRatio ghostRatio c :
  lru.New2QParamsG sz recentRatio ghostRatio = Ok c -> lru.inv c.
Proof.
  intros Hnew. apply New2QParamsG_ok in Hnew as (Hs & He & ->).
  constructor; simpl; try lia; try constructor; intros k [].
Qed.

Lemma reachable_inv c : lru.reachable c -> lru.inv c.
Proof.
  intros (sz & rr & gr & c0 & os & Hnew & ->).
  apply run_inv. eapply New2QParamsG_inv; eauto.
Qed.

End TwoQueueFacts.

(** ** The two-queue cache: construction, pools and ghosts *)
Section TwoQueueClaims.

Context {K V : Type} `{Comparable K} `{Zero K} `{Zero V}.
Implicit Types (c : lru.TwoQueueCacheG K V) (k key x : K) (v value : V).

(** C3 (amended): construction fails exactly when [size <= 0], or a ratio
    compares below 0.0 or above 1.0 (a NaN ratio does neither), or the
    ghost pool's capacity [int(float64(size) * ghostRatio)] is not
    positive; for every other input it returns the cache with three empty
    pools of capacities size, size and that ghost capacity.  A ghost
    capacity of zero is therefore not legal: it is one of the failures. *)
Theorem New2QParamsG_fails_iff sz recentRatio ghostRatio :
  let evictSize :=
    Float64.to_int (Float64.mul (Float64.of_int sz) ghostRatio) in
  let r := lru.New2QParamsG (K:=K) (V:=V) sz recentRatio ghostRatio in
  (is_err r = true <->
   sz <= 0
   \/ Float64.lt recentRatio Float64.f0_0 = true
   \/ Float64.gt recentRatio Float64.f1_0 = true
   \/ Float64.lt ghostRatio Float64.f0_0 = true
   \/ Float64.gt ghostRatio Float64.f1_0 = true
   \/ evictSize <= 0)
  /\ (is_err r = false ->
      r = Ok (lru.mkTwoQueueCacheG sz
                (Float64.to_int
                   (Float64.mul (Float64.of_int sz) recentRatio))
                (simplelru.mkLRUG sz [] false [])
                (simplelru.mkLRUG sz [] false [])
                (simplelru.mkLRUG evictSize [] false []))).
Proof.
  intros evictSize r. subst r.
  destruct (lru.New2QParamsG sz recentRatio ghostRatio) as [c|msg] eqn:Hnew.
  - pose proof Hnew as Hok.
    apply New2QParamsG_ok in Hok as (Hs & He & ->). fold evictSize in He.
    split; [|reflexivity].
    simpl. split; [discriminate|].
    unfold lru.New2QParamsG in Hnew.
    destruct (sz <=? 0) eqn:Hsz; [discriminate|].
    destruct (Float64.lt recentRatio Float64.f0_0); [discriminate|].
    destruct (Float64.gt recentRatio Float64.f1_0); [discriminate|].
    destruct (Float64.lt ghostRatio Float64.f0_0); [discriminate|].
    destruct (Float64.gt ghostRatio Float64.f1_0); [discriminate|].
    intros [|[|[|[|[|]]]]]; try discriminate; lia.
  - split; [|discriminate].
    simpl. split; [|reflexivity]. intros _.
    unfold lru.New2QParamsG, simplelru.NewLRUG, bind in Hnew.
    destruct (sz <=? 0) eqn:Hsz; [left; lia|].
    destruct (Float64.lt recentRatio Float64.f0_0); [tauto|].
    destruct (Float64.gt recentRatio Float64.f1_0); [tauto|].
    destruct (Float64.lt ghostRatio Float64.f0_0); [tauto|].
    destruct (Float64.gt ghostRatio Float64.f1_0); [tauto|].
    simpl in Hnew. fold evictSize in Hnew.
    destruct (evictSize <=? 0) eqn:He; [|discriminate].
    do 5 right. lia.
Qed.

(** C5: in every state a history of public calls can reach from a newly
    built cache, a key is found in at most one of [recent], [frequent] and
    [recentEvict]. *)
Theorem key_in_at_most_one_pool c key :
  lru.reachable c ->
  (lru.pool_count key c <= 1)%nat
  /\ ~ (lru.holds key (lru.recent c) /\ lru.holds key (lru.frequent c))
  /\ ~ (lru.holds key (lru.recent c) /\ lru.holds key (lru.recentEvict c))
  /\ ~ (lru.holds key (lru.frequent c) /\ lru.holds key (lru.recentEvict c)).
Proof.
  intros Hre. apply reachable_inv in Hre.
  destruct Hre as [_ _ _ _ _ _ Hrf Hrg Hfg].
  assert (Hex : ~ (lru.holds key (lru.recent c)
                   /\ lru.holds key (lru.frequent c))
                /\ ~ (lru.holds key (lru.recent c)
                      /\ lru.holds key (lru.recentEvict c))
                /\ ~ (lru.holds key (lru.frequent c)
                      /\ lru.holds key (lru.recentEvict c))).
  { repeat split; intros [Ha Hb]; [apply (Hrf key)|apply (Hrg key)
                                  |apply (Hfg key)]; auto. }
  split; [|exact Hex]. destruct Hex as (Ha & Hb & Hc).
  unfold lru.pool_count.
  destruct (simplelru.Contains key (lru.recent c)) eqn:Hr;
    destruct (simplelru.Contains key (lru.frequent c)) eqn:Hf;
    destruct (simplelru.Contains key (lru.recentEvict c)) eqn:Hg;
    simpl; try lia; exfalso;
    rewrite ?pool_Contains_true in *; tauto.
Qed.

(** X18: in every state a history of calls reaches, right after
    [Add(key, value)] returns [Peek(key)] is [(value, true)] and
    [Contains(key)] is true: the key is in the pool the call puts it in
    ([frequent] when it was known to one of the three pools, [recent] when
    it was wholly new), with the value given. *)
Theorem Add_caches_key c key value :
  lru.reachable c ->
  let c' := lru.Add key value c in
  lru.Peek key c' = (value, true)
  /\ lru.Contains key c' = true
  /\ (if simplelru.Contains key (lru.frequent c)
         || simplelru.Contains key (lru.recent c)
         || simplelru.Contains key (lru.recentEvict c)
      then simplelru.Peek key (lru.frequent c') = (value, true)
      else simplelru.Peek key (lru.recent c') = (value, true)
           /\ simplelru.Contains key (lru.frequent c') = false).
Proof.
  intros Hre c'. apply reachable_inv in Hre as Hinv.
  pose proof Hinv as [Hrw Hfw Hgw Hrs Hfs Hgs Hrf Hrg Hfg].
  assert (Hfreq : simplelru.Peek key (lru.frequent c') = (value, true) ->
                  lru.Peek key c' = (value, true)
                  /\ lru.Contains key c' = true).
  { intros Hp. unfold lru.Peek, lru.Contains. rewrite Hp. split; auto.
    rewrite <- Peek_found, Hp. reflexivity. }
  subst c'. unfold lru.Add in *.
  destruct (simplelru.Contains key (lru.frequent c)) eqn:Hf;
    [|destruct (simplelru.Contains key (lru.recent c)) eqn:Hr;
      [|destruct (simplelru.Contains key (lru.recentEvict c)) eqn:Hg]];
    cbn [orb].
  - destruct (Add_post key value (lru.frequent c) Hfw Hfs)
      as (_ & _ & _ & Hp & _).
    destruct (Hfreq Hp). auto.
  - destruct (Add_post key value (lru.frequent c) Hfw Hfs)
      as (_ & _ & _ & Hp & _).
    destruct (Hfreq Hp). auto.
  - pose proof (ensureSpace_inv true c Hinv) as [_ Hfw1 _ _ Hfs1 _ _ _ _].
    destruct (Add_post key value (lru.frequent (lru.ensureSpace true c))
                Hfw1 Hfs1) as (_ & _ & _ & Hp & _).
    destruct (Hfreq Hp). auto.
  - pose proof (ensureSpace_inv false c Hinv) as [Hrw1 _ _ Hrs1 _ _ _ _ _].
    destruct (ensureSpace_holds false c key Hinv) as (_ & Hkf & _).
    destruct (Add_post key value (lru.recent (lru.ensureSpace false c))
                Hrw1 Hrs1) as (_ & _ & _ & Hp & _).
    apply pool_Contains_false in Hf.
    assert (Hnf : ~ lru.holds key (lru.frequent (lru.ensureSpace false c)))
      by tauto.
    unfold lru.Peek, lru.Contains. simpl.
    rewrite (pool_Peek_miss key _ Hnf), Hp.
    apply pool_Contains_false in Hnf. rewrite Hnf.
    repeat split; auto.
    rewrite <- Peek_found, Hp. reflexivity.
Qed.

Lemma Get_miss x c :
  ~ lru.holds x (lru.frequent c) -> ~ lru.holds x (lru.recent c) ->
  lru.Get x c = (zero, false, c) /\ lru.Peek x c = (zero, false).
Proof.
  intros Hf Hr. split.
  - destruct (Get_cases x c) as [(Hf' & _)|[(_ & Hr' & _)|(_ & _ & Hg)]];
      tauto.
  - unfold lru.Peek.
    now rewrite (pool_Peek_miss x _ Hf), (pool_Peek_miss x _ Hr).
Qed.

(** The key [ensureSpace] takes out of [recent] is a ghost afterwards. *)
Lemma ensureSpace_ghost hint x c :
  lru.inv c ->
  lru.holds x (lru.recent c) ->
  ~ lru.holds x (lru.recent (lru.ensureSpace hint c)) ->
  simplelru.Peek x (lru.recentEvict (lru.ensureSpace hint c)) = (zero, true)
  /\ lru.holds x (lru.recentEvict (lru.ensureSpace hint c))
  /\ ~ lru.holds x (lru.frequent (lru.ensureSpace hint c)).
Proof.
  intros Hinv Hx Hgone.
  pose proof (ensureSpace_inv hint c Hinv) as [_ _ _ _ _ _ _ _ Hfg1].
  pose proof Hinv as [Hrw Hfw Hgw Hrs Hfs Hgs Hrf Hrg Hfg].
  assert (Hg : simplelru.Peek x (lru.recentEvict (lru.ensureSpace hint c))
               = (zero, true)
               /\ lru.holds x (lru.recentEvict (lru.ensureSpace hint c))).
  { revert Hgone.
    destruct (ensureSpace_cases hint c)
      as [[_ ->]|[(_ & e & He & ->)|[_ ->]]]; simpl; try tauto.
    destruct (pool_RemoveOldest (lru.recent c) Hrw) as (_ & _ & Hi & _).
    destruct (Add_post (fst e) zero (lru.recentEvict c) Hgw Hgs)
      as (_ & _ & Hin & Hp & _).
    unfold lru.holds, simplelru.Keys in *. rewrite Hi. intros Hgone.
    assert (Hxe : x = fst e).
    { destruct (simplelru.items (lru.recent c)) as [|e' m];
        [discriminate|].
      injection He as ->. simpl in *. destruct Hx; [auto|tauto]. }
    subst x. auto. }
  destruct Hg as [Hp Hh]. repeat split; auto.
  intros Hf. apply (Hfg1 x); auto.
Qed.

(** C4: a key [x] that [ensureSpace] evicts from [recent] is a ghost with
    the empty value: [Get(x)] misses and changes nothing, both in the
    state [ensureSpace] leaves and when the [Add] that called it has
    returned; and an [Add(x, v)] made while [x] is a ghost takes the ghost
    away and puts [(x, v)] into [frequent], not into [recent]. *)
Theorem ghost_readmission c x :
  lru.reachable c ->
  (forall hint,
      lru.holds x (lru.recent c) ->
      ~ lru.holds x (lru.recent (lru.ensureSpace hint c)) ->
      let c1 := lru.ensureSpace hint c in
      simplelru.Peek x (lru.recentEvict c1) = (zero, true)
      /\ lru.Get x c1 = (zero, false, c1)
      /\ lru.Peek x c1 = (zero, false))
  /\ (forall key value,
        lru.Contains key c = false ->
        let hint := simplelru.Contains key (lru.recentEvict c) in
        lru.holds x (lru.recent c) ->
        ~ lru.holds x (lru.recent (lru.ensureSpace hint c)) ->
        let c2 := lru.Add key value c in
        simplelru.Peek x (lru.recentEvict c2) = (zero, true)
        /\ lru.Get x c2 = (zero, false, c2)
        /\ lru.Peek x c2 = (zero, false))
  /\ (forall v,
        lru.holds x (lru.recentEvict c) ->
        let c3 := lru.Add x v c in
        simplelru.Peek x (lru.frequent c3) = (v, true)
        /\ lru.Peek x c3 = (v, true)
        /\ ~ lru.holds x (lru.recent c3)
        /\ ~ lru.holds x (lru.recentEvict c3)).
Proof.
  intros Hre. apply reachable_inv in Hre as Hinv.
  pose proof Hinv as [Hrw Hfw Hgw Hrs Hfs Hgs Hrf Hrg Hfg].
  split; [|split].
  - intros hint Hx Hgone c1. subst c1.
    destruct (ensureSpace_ghost hint x c Hinv Hx Hgone) as (Hp & _ & Hnf).
    destruct (Get_miss x _ Hnf Hgone). auto.
  - intros key value Hc hint Hx Hgone c2.
    destruct (ensureSpace_ghost hint x c Hinv Hx Hgone) as (Hp & Hh & Hnf).
    pose proof (ensureSpace_inv hint c Hinv)
      as [Hrw1 Hfw1 Hgw1 Hrs1 Hfs1 Hgs1 _ _ _].
    unfold lru.Contains in Hc. apply orb_false_iff in Hc as [Hcf Hcr].
    assert (Hne : x <> key).
    { intros ->. apply pool_Contains_false in Hcr. contradiction. }
    subst c2. unfold lru.Add. rewrite Hcf, Hcr. fold hint.
    destruct hint eqn:Hhint.
    + destruct (pool_Remove key (lru.recentEvict (lru.ensureSpace true c))
                  Hgw1) as (_ & _ & _ & _ & Hkeep).
      destruct (Add_post key value (lru.frequent (lru.ensureSpace true c))
                  Hfw1 Hfs1) as (_ & _ & _ & _ & Hfsub).
      assert (Hp2 : simplelru.Peek x
                      (snd (simplelru.Remove key
                              (lru.recentEvict (lru.ensureSpace true c))))
                    = (zero, true)).
      { unfold simplelru.Peek, omap.Get in *. rewrite Remove_items.
        rewrite lookup_Delete_other by auto. exact Hp. }
      refine (conj Hp2 _). apply Get_miss; simpl; auto.
      intros Hf. apply Hfsub in Hf as [Hf|Hf]; auto.
    + destruct (Add_post key value (lru.recent (lru.ensureSpace false c))
                  Hrw1 Hrs1) as (_ & _ & _ & _ & Hrsub).
      refine (conj Hp _). apply Get_miss; simpl; auto.
      intros Hr. apply Hrsub in Hr as [Hr|Hr]; auto.
  - intros v Hx c3. subst c3. unfold lru.Add.
    assert (Hnf : simplelru.Contains x (lru.frequent c) = false).
    { apply pool_Contains_false. intros Hf. apply (Hfg x); auto. }
    assert (Hnr : simplelru.Contains x (lru.recent c) = false).
    { apply pool_Contains_false. intros Hr. apply (Hrg x); auto. }
    apply pool_Contains_true in Hx as Hxc. rewrite Hnf, Hnr, Hxc.
    pose proof (ensureSpace_inv true c Hinv)
      as [Hrw1 Hfw1 Hgw1 Hrs1 Hfs1 Hgs1 _ _ _].
    destruct (ensureSpace_holds true c x Hinv) as (Hkr & _ & _).
    destruct (pool_Remove x (lru.recentEvict (lru.ensureSpace true c)) Hgw1)
      as (_ & _ & Hgone & _ & _).
    destruct (Add_post x v (lru.frequent (lru.ensureSpace true c)) Hfw1 Hfs1)
      as (_ & _ & _ & Hp & _).
    apply pool_Contains_false in Hnr.
    simpl. repeat split; auto.
    unfold lru.Peek. simpl. now rewrite Hp.
Qed.

End TwoQueueClaims.

(** ** The two-queue cache: the size bound, when the target for [recent]
       is below the size *)
Section TwoQueueSize.

Context {K V : Type} `{Comparable K} `{Zero K} `{Zero V}.
Implicit Types (c : lru.TwoQueueCacheG K V) (p : simplelru.LRUG K V)
  (k key x : K) (v value : V).

Lemma Len_Add_present key value p :
  simplelru.wf p -> lru.holds key p -> simplelru.Len p <= simplelru.size p ->
  simplelru.Len (snd (simplelru.Add key value p)) = simplelru.Len p.
Proof.
  intros Hwf Hk Hle.
  destruct (Add_within_capacity key value p Hwf Hle) as (Hiff & Hit & _).
  destruct (fst (simplelru.Add key value p)) eqn:Hev.
  - destruct (proj1 Hiff eq_refl) as [Hn _]. contradiction.
  - unfold simplelru.Len. rewrite Hit, Len_snoc.
    unfold omap.Len, GoInt.len.
    rewrite <- (Delete_length key (simplelru.items p) Hk). lia.
Qed.

Lemma Len_Add_absent key value p :
  ~ lru.holds key p -> simplelru.Len p < simplelru.size p ->
  simplelru.Len (snd (simplelru.Add key value p)) = simplelru.Len p + 1.
Proof.
  intros Hn Hlt. rewrite Add_fresh by auto. simpl.
  unfold simplelru.Len. simpl. apply Len_snoc.
Qed.

Lemma Len_Remove key p :
  simplelru.Len (snd (simplelru.Remove key p))
  = if simplelru.Contains key p then simplelru.Len p - 1
    else simplelru.Len p.
Proof.
  unfold simplelru.Len. rewrite Remove_items.
  destruct (simplelru.Contains key p) eqn:Hc.
  - apply pool_Contains_true in Hc. unfold omap.Len, GoInt.len.
    rewrite <- (Delete_length key (simplelru.items p) Hc). lia.
  - apply pool_Contains_false in Hc. now rewrite Delete_absent.
Qed.

Lemma Len_RemoveOldest p :
  simplelru.Len (snd (simplelru.RemoveOldest p))
  = Z.max (simplelru.Len p - 1) 0.
Proof.
  unfold simplelru.Len.
  rewrite RemoveOldest_state, removeOldest_items. apply Len_tl.
Qed.

Lemma Len_Get key p :
  simplelru.Len (snd (simplelru.Get key p)) = simplelru.Len p.
Proof.
  unfold simplelru.Len, omap.Len, GoInt.len.
  now rewrite Get_items, ToTail_length.
Qed.

Lemma Len_holds key p : lru.holds key p -> 1 <= simplelru.Len p.
Proof.
  unfold lru.holds, simplelru.Keys, simplelru.Len, omap.Len, GoInt.len.
  destruct (simplelru.items p); simpl; [tauto | lia].
Qed.

Lemma Len_nonneg p : 0 <= simplelru.Len p.
Proof. apply len_nonneg. Qed.

(** With the target for [recent] below the size, [ensureSpace] leaves a
    free slot. *)
Lemma ensureSpace_frees_a_slot hint c :
  lru.inv c -> lru.sized c ->
  let c1 := lru.ensureSpace hint c in
  lru.size c1 = lru.size c
  /\ lru.recentSize c1 = lru.recentSize c
  /\ simplelru.size (lru.recent c1) = lru.size c
  /\ simplelru.size (lru.frequent c1) = lru.size c
  /\ simplelru.Len (lru.recent c1) + simplelru.Len (lru.frequent c1)
     < lru.size c.
Proof.
  intros Hinv [Hsr Hsf Htg Hint Hlen] c1. subst c1.
  pose proof Hinv as [Hrw Hfw Hgw Hrs Hfs Hgs Hrf Hrg Hfg].
  pose proof (Len_nonneg (lru.recent c)) as Hr0.
  pose proof (Len_nonneg (lru.frequent c)) as Hf0.
  assert (Hadd : GoInt.add (simplelru.Len (lru.recent c))
                   (simplelru.Len (lru.frequent c))
                 = simplelru.Len (lru.recent c)
                   + simplelru.Len (lru.frequent c)).
  { apply wrap_in_range.
    unfold GoInt.in_range, GoInt.min_int, GoInt.max_int in *. lia. }
  destruct (ensureSpace_cases hint c)
    as [[Hroom ->]|[(Hev & e & He & ->)|[Hev ->]]]; simpl.
  - rewrite Hadd in Hroom. repeat split; auto. lia.
  - rewrite Len_RemoveOldest, removeOldest_size_state. repeat split; auto.
    assert (1 <= simplelru.Len (lru.recent c)).
    { unfold simplelru.Len, omap.Len, GoInt.len.
      destruct (simplelru.items (lru.recent c)); [discriminate|].
      simpl. lia. }
    lia.
  - rewrite Len_RemoveOldest, removeOldest_size_state. repeat split; auto.
    unfold lru.evicts_from_recent in Hev. rewrite Hadd in Hev.
    destruct (Z.eq_dec (simplelru.Len (lru.frequent c)) 0) as [Hz|Hnz];
      [|lia].
    destruct (simplelru.Len (lru.recent c) + simplelru.Len (lru.frequent c)
              <? lru.size c) eqn:Hroom; [lia|].
    exfalso. simpl in Hev.
    assert (Hgt : (simplelru.Len (lru.recent c) >? 0) = true) by lia.
    assert (Hgt' : (simplelru.Len (lru.recent c) >? lru.recentSize c) = true)
      by lia.
    rewrite Hgt, Hgt' in Hev. discriminate.
Qed.

Lemma Get_sized key c :
  lru.inv c -> lru.sized c -> lru.sized (snd (lru.Get key c)).
Proof.
  intros Hinv Hsz. pose proof Hsz as [Hsr Hsf Htg Hint Hlen].
  pose proof Hinv as [Hrw Hfw Hgw Hrs Hfs Hgs Hrf Hrg Hfg].
  destruct (Get_cases key c)
    as [(Hf & v & _ & ->)|[(Hnf & Hr & v & _ & ->)|(_ & _ & ->)]]; auto.
  - constructor; simpl; auto.
    + now rewrite Get_size.
    + now rewrite Len_Get.
  - pose proof (Len_holds key _ Hr) as Hone.
    pose proof (Len_nonneg (lru.frequent c)) as Hf0.
    apply pool_Contains_true in Hr as Hrc.
    constructor; simpl; auto.
    + now rewrite Remove_size.
    + now rewrite Add_size.
    + rewrite Len_Remove, Hrc, Len_Add_absent by (auto; lia). lia.
Qed.

Lemma Add_sized key value c :
  lru.inv c -> lru.sized c -> lru.sized (lru.Add key value c).
Proof.
  intros Hinv Hsz. pose proof Hsz as [Hsr Hsf Htg Hint Hlen].
  pose proof Hinv as [Hrw Hfw Hgw Hrs Hfs Hgs Hrf Hrg Hfg].
  pose proof (Len_nonneg (lru.recent c)) as Hr0.
  pose proof (Len_nonneg (lru.frequent c)) as Hf0.
  unfold lru.Add.
  destruct (simplelru.Contains key (lru.frequent c)) eqn:Hf;
    [|destruct (simplelru.Contains key (lru.recent c)) eqn:Hr;
      [|destruct (simplelru.Contains key (lru.recentEvict c)) eqn:Hg]].
  - apply pool_Contains_true in Hf.
    constructor; simpl; auto.
    + now rewrite Add_size.
    + rewrite Len_Add_present by (auto; lia). lia.
  - apply pool_Contains_false in Hf.
    pose proof (proj1 (pool_Contains_true key _) Hr) as Hr'.
    pose proof (Len_holds key _ Hr') as Hone.
    constructor; simpl; auto.
    + now rewrite Remove_size.
    + now rewrite Add_size.
    + rewrite Len_Remove, Hr, Len_Add_absent by (auto; lia). lia.
  - apply pool_Contains_false in Hf.
    destruct (ensureSpace_frees_a_slot true c Hinv Hsz)
      as (Hs1 & Ht1 & Hsr1 & Hsf1 & Hlt).
    destruct (ensureSpace_holds true c key Hinv) as (_ & Hkf & _).
    set (c1 := lru.ensureSpace true c) in *.
    pose proof (Len_nonneg (lru.recent c1)) as Hr1.
    constructor; simpl; try rewrite Add_size; try lia.
    rewrite Len_Add_absent by (try tauto; lia). lia.
  - apply pool_Contains_false in Hr.
    destruct (ensureSpace_frees_a_slot false c Hinv Hsz)
      as (Hs1 & Ht1 & Hsr1 & Hsf1 & Hlt).
    destruct (ensureSpace_holds false c key Hinv) as (Hkr & _ & _).
    set (c1 := lru.ensureSpace false c) in *.
    pose proof (Len_nonneg (lru.frequent c1)) as Hf1.
    constructor; simpl; try rewrite Add_size; try lia.
    rewrite Len_Add_absent by (try tauto; lia). lia.
Qed.

Lemma Remove_sized key c :
  lru.inv c -> lru.sized c -> lru.sized (lru.Remove key c).
Proof.
  intros Hinv [Hsr Hsf Htg Hint Hlen]. unfold lru.Remove.
  pose proof (Len_Remove key (lru.frequent c)) as Hlf.
  pose proof (Remove_size key (lru.frequent c)) as Hzf.
  pose proof (Remove_present key (lru.frequent c)) as Hpf.
  destruct (simplelru.Remove key (lru.frequent c)) as [pf f].
  simpl in *. destruct pf.
  - constructor; simpl; try lia. rewrite Hlf, <- Hpf. lia.
  - pose proof (Len_Remove key (lru.recent c)) as Hlr.
    pose proof (Remove_size key (lru.recent c)) as Hzr.
    pose proof (Remove_present key (lru.recent c)) as Hpr.
    destruct (simplelru.Remove key (lru.recent c)) as [pr r].
    simpl in *. rewrite <- Hpf in Hlf. rewrite <- Hpr in Hlr.
    assert (Hi : forall g,
               lru.sized
                 (lru.with_recentEvict
                    (lru.with_recent (lru.with_frequent c f) r) g)).
    { intros g. constructor; simpl; try lia. destruct pr; lia. }
    destruct pr.
    + apply (Hi (lru.recentEvict c)).
    + destruct (simplelru.Remove key (lru.recentEvict c)) as [pg g].
      destruct pg; apply Hi.
Qed.

Lemma Purge_sized c : lru.sized c -> lru.sized (lru.Purge c).
Proof.
  intros [Hsr Hsf Htg Hint Hlen]. unfold lru.Purge.
  constructor; simpl; try rewrite Purge_size; auto.
  unfold simplelru.Len. rewrite !Purge_items.
  unfold omap.Len, GoInt.len. simpl.
  pose proof (Len_nonneg (lru.recent c)).
  pose proof (Len_nonneg (lru.frequent c)). lia.
Qed.

(** The size bound of the two-queue cache, for every cache whose target
    for [recent] is below its size (a recent ratio below 1.0): after any
    history of public calls the live entries number at most [size], and
    [Len()] reports their number. *)
Lemma len_within_size sz recentRatio ghostRatio c0 (os : list (lru.op K V)) :
  lru.New2QParamsG sz recentRatio ghostRatio = Ok c0 ->
  lru.recentSize c0 < sz <= GoInt.max_int ->
  let c := lru.run os c0 in
  lru.size c = sz
  /\ simplelru.Len (lru.recent c) + simplelru.Len (lru.frequent c) <= sz
  /\ lru.Len c
     = simplelru.Len (lru.recent c) + simplelru.Len (lru.frequent c).
Proof.
  intros Hnew Hsz c.
  assert (Hall : lru.inv c /\ lru.sized c /\ lru.size c = lru.size c0).
  { subst c. pose proof (New2QParamsG_inv _ _ _ _ Hnew) as Hinv0.
    assert (Hsz0 : lru.sized c0).
    { apply New2QParamsG_ok in Hnew as (Hs & He & ->).
      simpl in Hsz. constructor; simpl; try lia.
      unfold simplelru.Len, omap.Len, GoInt.len. simpl. lia. }
    clear Hnew Hsz. revert c0 Hinv0 Hsz0.
    induction os as [|o os IH]; intros c0 Hinv0 Hsz0; simpl; auto.
    assert (Hstep : lru.inv (lru.exec o c0) /\ lru.sized (lru.exec o c0)
                    /\ lru.size (lru.exec o c0) = lru.size c0).
    { split; [now apply exec_inv|].
      destruct o; simpl; auto.
      - pose proof (Get_sized key c0 Hinv0 Hsz0) as Hg. split; auto.
        destruct (Get_cases key c0)
          as [(_ & v & _ & ->)|[(_ & _ & v & _ & ->)|(_ & _ & ->)]]; auto.
      - split; [now apply Add_sized|]. apply Add_size_field.
      - split; [now apply Remove_sized|]. apply Remove_size_field.
      - split; [now apply Purge_sized|]. reflexivity. }
    destruct Hstep as (Hi & Hs & He).
    destruct (IH _ Hi Hs) as (Hi' & Hs' & He').
    split; [exact Hi'|]. split; [exact Hs'|]. congruence. }
  destruct Hall as (Hinv & [Hsr Hsf Htg Hint Hlen] & Hsize).
  assert (Hs0 : lru.size c0 = sz).
  { apply New2QParamsG_ok in Hnew as (_ & _ & ->). reflexivity. }
  rewrite Hs0 in Hsize. rewrite Hsize in *.
  repeat split; auto.
  unfold lru.Len. apply wrap_in_range.
  pose proof (Len_nonneg (lru.recent c)).
  pose proof (Len_nonneg (lru.frequent c)).
  unfold GoInt.in_range, GoInt.min_int, GoInt.max_int in *. lia.
Qed.

(** Within the size bound the pool that receives the key of an [Add] has a
    free slot: the pool's own [Add] reports no eviction. *)
Lemma Add_pool_has_free_slot key value c :
  lru.inv c -> lru.sized c ->
  fst (simplelru.Add key value
         (if simplelru.Contains key (lru.frequent c)
             || simplelru.Contains key (lru.recent c)
          then lru.frequent c
          else if simplelru.Contains key (lru.recentEvict c)
               then lru.frequent (lru.ensureSpace true c)
               else lru.recent (lru.ensureSpace false c)))
  = false.
Proof.
  intros Hinv Hsz. pose proof Hsz as [Hsr Hsf Htg Hint Hlen].
  pose proof Hinv as [Hrw Hfw Hgw Hrs Hfs Hgs Hrf Hrg Hfg].
  pose proof (Len_nonneg (lru.recent c)) as Hr0.
  pose proof (Len_nonneg (lru.frequent c)) as Hf0.
  destruct (simplelru.Contains key (lru.frequent c)) eqn:Hf;
    [|destruct (simplelru.Contains key (lru.recent c)) eqn:Hr;
      [|destruct (simplelru.Contains key (lru.recentEvict c)) eqn:Hg]];
    cbn [orb].
  - apply pool_Contains_true in Hf.
    assert (Hcap : simplelru.within_capacity (lru.frequent c))
      by (unfold simplelru.within_capacity; lia).
    destruct (Add_within_capacity key value _ Hfw Hcap) as (Hiff & _).
    destruct (fst (simplelru.Add key value (lru.frequent c))); auto.
    destruct (proj1 Hiff eq_refl) as [Hn _]. contradiction.
  - apply pool_Contains_false in Hf. apply pool_Contains_true in Hr.
    pose proof (Len_holds key _ Hr) as Hone.
    rewrite Add_fresh; auto. lia.
  - apply pool_Contains_false in Hf.
    destruct (ensureSpace_frees_a_slot true c Hinv Hsz)
      as (_ & _ & _ & Hsf1 & Hlt).
    destruct (ensureSpace_holds true c key Hinv) as (_ & Hkf & _).
    pose proof (Len_nonneg (lru.recent (lru.ensureSpace true c))).
    rewrite Add_fresh; auto. lia.
  - apply pool_Contains_false in Hr.
    destruct (ensureSpace_frees_a_slot false c Hinv Hsz)
      as (_ & _ & Hsr1 & _ & Hlt).
    destruct (ensureSpace_holds false c key Hinv) as (Hkr & _ & _).
    pose proof (Len_nonneg (lru.frequent (lru.ensureSpace false c))).
    rewrite Add_fresh; auto. lia.
Qed.

End TwoQueueSize.

(** Concrete runs of the two-queue cache, on integer keys and values. *)

(** C3, as stated, fails in both directions: [New2QG(1)] has a positive
    size and the default ratios 0.25 and 0.50, both inside [0.0, 1.0], and
    is rejected because its ghost capacity [int(1 * 0.50)] is 0; and a NaN
    recent ratio, which is not inside [0.0, 1.0], is accepted. *)
Lemma New2QG_size_one_rejected :
  0 < 1
  /\ Float64.in_unit_interval (lru.Default2QRecentRatioG) = true
  /\ Float64.in_unit_interval (lru.Default2QGhostEntriesG) = true
  /\ Float64.to_int (Float64.mul (Float64.of_int 1) Float64.f0_50) = 0
  /\ lru.New2QG (K:=Z) (V:=Z) 1 = Err "must provide a positive size"
  /\ Float64.in_unit_interval S754_nan = false
  /\ is_err (lru.New2QParamsG (K:=Z) (V:=Z) 2 S754_nan Float64.f1_0) = false.
Proof.
  repeat split; reflexivity.
Qed.

(** Key 1 after it was added, evicted to the ghost pool and added again,
    in a cache of size 2. *)
Lemma key_in_at_most_one_pool_witness :
  Nat.le
    (lru.pool_count 1
       (lru.run
          [lru.OpAdd 1 10; lru.OpAdd 2 20; lru.OpAdd 3 30; lru.OpGet 2;
           lru.OpAdd 1 11]
          (lru.mkTwoQueueCacheG (K:=Z) (V:=Z) 2 1
             (simplelru.mkLRUG 2 [] false [])
             (simplelru.mkLRUG 2 [] false [])
             (simplelru.mkLRUG 1 [] false []))))
    1%nat.
Proof.
  refine (proj1 (key_in_at_most_one_pool _ 1 _)).
  exists 2, Float64.f0_50, Float64.f0_50.
  eexists. eexists. split; reflexivity.
Defined.

(** [Add(3, 30)] into a full cache of size 2. *)
Lemma Add_caches_key_witness :
  lru.Peek 3
    (lru.Add 3 30
       (lru.run [lru.OpAdd 1 10; lru.OpAdd 2 20]
          (lru.mkTwoQueueCacheG (K:=Z) (V:=Z) 2 1
             (simplelru.mkLRUG 2 [] false [])
             (simplelru.mkLRUG 2 [] false [])
             (simplelru.mkLRUG 1 [] false []))))
  = (30, true).
Proof.
  refine (proj1 (Add_caches_key _ 3 30 _)).
  exists 2, Float64.f0_50, Float64.f0_50.
  eexists. eexists. split; reflexivity.
Defined.

(** In a cache of size 2 holding keys 1 and 2 in [recent], [Add(3, 30)]
    makes key 1 a ghost; [Add(1, 11)] then brings it into [frequent]. *)
Lemma ghost_readmission_witness :
  let c0 := lru.mkTwoQueueCacheG (K:=Z) (V:=Z) 2 1
              (simplelru.mkLRUG 2 [] false [])
              (simplelru.mkLRUG 2 [] false [])
              (simplelru.mkLRUG 1 [] false []) in
  let c := lru.run [lru.OpAdd 1 10; lru.OpAdd 2 20] c0 in
  let c2 := lru.Add 3 30 c in
  (simplelru.Peek 1 (lru.recentEvict c2) = (0, true)
   /\ lru.Get 1 c2 = (0, false, c2)
   /\ lru.Peek 1 c2 = (0, false))
  /\ (simplelru.Peek 1 (lru.frequent (lru.Add 1 11 c2)) = (11, true)
      /\ lru.Peek 1 (lru.Add 1 11 c2) = (11, true)
      /\ ~ lru.holds 1 (lru.recent (lru.Add 1 11 c2))
      /\ ~ lru.holds 1 (lru.recentEvict (lru.Add 1 11 c2))).
Proof.
  intros c0 c c2.
  assert (Hc : lru.reachable c).
  { exists 2, Float64.f0_50, Float64.f0_50, c0,
      [lru.OpAdd 1 10; lru.OpAdd 2 20]. split; reflexivity. }
  assert (Hc2 : lru.reachable c2).
  { exists 2, Float64.f0_50, Float64.f0_50, c0,
      [lru.OpAdd 1 10; lru.OpAdd 2 20; lru.OpAdd 3 30]. split; reflexivity. }
  split.
  - refine (proj1 (proj2 (ghost_readmission c 1 Hc)) 3 30 eq_refl _ _).
    + vm_compute. now left.
    + vm_compute. intros [Hk|[]]. discriminate.
  - refine (proj2 (proj2 (ghost_readmission c2 1 Hc2)) 11 _).
    vm_compute. now left.
Defined.

(** C1 at the input where the code departs from it: built with size 1 and
    recent ratio 1.0, after [Add(1); Add(2)] the cache is full
    ([recent.Len() + frequent.Len() = size]), [frequent] is empty and
    [recent] holds exactly [recentSize] entries; [ensureSpace(true)] then
    takes its last branch, [frequent.RemoveOldest()] finds nothing, and no
    entry is evicted. *)
Lemma ensureSpace_true_evicts_nothing :
  let c0 := lru.mkTwoQueueCacheG (K:=Z) (V:=Z) 1 1
              (simplelru.mkLRUG 1 [] false [])
              (simplelru.mkLRUG 1 [] false [])
              (simplelru.mkLRUG 1 [] false []) in
  let c := lru.run [lru.OpAdd 1 10; lru.OpAdd 2 20] c0 in
  lru.New2QParamsG 1 Float64.f1_0 Float64.f1_0 = Ok c0
  /\ simplelru.Keys (lru.recent c) = [2]
  /\ simplelru.Keys (lru.frequent c) = []
  /\ simplelru.Keys (lru.recentEvict c) = [1]
  /\ simplelru.Len (lru.recent c) + simplelru.Len (lru.frequent c)
     = lru.size c
  /\ lru.evicts_from_recent true c = false
  /\ lru.ensureSpace true c = c.
Proof.
  repeat split.
Qed.

(** C2 at the input where the code departs from it: built with size 1 and
    recent ratio 1.0, after [Add(1); Add(2); Add(1)] the cache holds two
    entries, one in [recent] and one in [frequent]. *)
Lemma Add_ghost_overfills_cache :
  let c0 := lru.mkTwoQueueCacheG (K:=Z) (V:=Z) 1 1
              (simplelru.mkLRUG 1 [] false [])
              (simplelru.mkLRUG 1 [] false [])
              (simplelru.mkLRUG 1 [] false []) in
  let c := lru.run [lru.OpAdd 1 10; lru.OpAdd 2 20; lru.OpAdd 1 11] c0 in
  lru.New2QParamsG 1 Float64.f1_0 Float64.f1_0 = Ok c0
  /\ lru.Keys c = [1; 2]
  /\ lru.Len c = 2
  /\ lru.size c = 1
  /\ ~ simplelru.Len (lru.recent c) + simplelru.Len (lru.frequent c)
       <= lru.size c.
Proof.
  repeat split. vm_compute. intros Hle. now apply Hle.
Qed.

(** C9 at the input where the code departs from it: built with size 1 and
    recent ratio 1.0, after [Add(1, 10); Add(2, 20); Add(1, 11)] the cache
    holds key 2 in [recent] and key 1 in [frequent], which is full.
    [Add(2, 21)] promotes key 2: it lands in [frequent], which has no room
    for it, and the pool's own [Add] evicts key 1 to admit it.  Key 2 is
    cached with its value afterwards; key 1, cached before, is gone. *)
Lemma Add_promotion_drops_oldest_frequent :
  let c0 := lru.mkTwoQueueCacheG (K:=Z) (V:=Z) 1 1
              (simplelru.mkLRUG 1 [] false [])
              (simplelru.mkLRUG 1 [] false [])
              (simplelru.mkLRUG 1 [] false []) in
  let c := lru.run [lru.OpAdd 1 10; lru.OpAdd 2 20; lru.OpAdd 1 11] c0 in
  lru.New2QParamsG 1 Float64.f1_0 Float64.f1_0 = Ok c0
  /\ simplelru.Keys (lru.recent c) = [2]
  /\ simplelru.Keys (lru.frequent c) = [1]
  /\ simplelru.Len (lru.frequent c) = simplelru.size (lru.frequent c)
  /\ fst (simplelru.Add 2 21 (lru.frequent c)) = true
  /\ lru.Contains 1 c = true
  /\ lru.Contains 1 (lru.Add 2 21 c) = false
  /\ lru.Keys (lru.Add 2 21 c) = [2]
  /\ lru.Peek 2 (lru.Add 2 21 c) = (21, true).
Proof.
  repeat split.
Qed.

(** * Further properties of the bounded ordered cache *)
Section LRUMore.

Context {K V : Type} `{Comparable K} `{Zero K} `{Zero V}.
Implicit Types (c : simplelru.LRUG K V) (k key : K) (v value : V)
  (m : omap.OrderedMap K V).

Lemma built_wf c :
  simplelru.built c -> simplelru.wf c /\ simplelru.within_capacity c.
Proof.
  intros (sz & cb & c0 & os & Hmax & Hnew & Hres & ->).
  apply NewLRUG_ok in Hnew as [Hpos ->].
  destruct (run_invariant os (simplelru.mkLRUG sz [] cb []) Hres)
    as (Hwf & Hcap & _); auto.
  repeat split; simpl; auto.
  - constructor.
  - unfold simplelru.within_capacity, simplelru.Len, omap.Len, GoInt.len.
    simpl. lia.
Qed.

Lemma lookup_snoc_other key key' value m :
  key' <> key ->
  omap.lookup key' (m ++ [(key, value)]) = omap.lookup key' m.
Proof.
  intros Hne. induction m as [|[k v] m IH]; simpl.
  - destruct (key_eq_dec key key'); congruence.
  - destruct (key_eq_dec k key'); auto.
Qed.

Lemma lookup_tl_other key' m e :
  hd_error m = Some e -> key' <> fst e ->
  omap.lookup key' (tl m) = omap.lookup key' m.
Proof.
  destruct m as [|[k v] m]; simpl; [discriminate|].
  intros [= <-] Hne. simpl in Hne.
  destruct (key_eq_dec k key'); congruence.
Qed.

Lemma Peek_lookup key c :
  simplelru.Peek key c
  = match omap.lookup key (simplelru.items c) with
    | Some v => (v, true)
    | None => (zero, false)
    end.
Proof. reflexivity. Qed.

Lemma Peek_ext key c c' :
  omap.lookup key (simplelru.items c') = omap.lookup key (simplelru.items c) ->
  simplelru.Peek key c' = simplelru.Peek key c.
Proof. intros Hl. now rewrite !Peek_lookup, Hl. Qed.

(** X1: in a cache with capacity at least 1, [Add(key, value)] leaves the
    key readable with the value given; every other key still in the cache
    keeps its value; and the only key an [Add] can drop is the one
    [GetOldest] returned before the call. *)
Theorem lru_Add_then_Peek key value c :
  simplelru.built c -> 1 <= simplelru.size c ->
  let c' := snd (simplelru.Add key value c) in
  simplelru.Peek key c' = (value, true)
  /\ (forall key', key' <> key -> simplelru.Contains key' c' = true ->
      simplelru.Peek key' c' = simplelru.Peek key' c)
  /\ (forall key', key' <> key -> simplelru.Contains key' c = true ->
      simplelru.Contains key' c' = false ->
      fst (simplelru.Add key value c) = true
      /\ fst (fst (simplelru.GetOldest c)) = key').
Proof.
  intros Hb Hone c'. subst c'.
  destruct (built_wf c Hb) as [Hwf Hcap].
  destruct (Add_post key value c Hwf Hone) as (_ & _ & _ & Hp & _).
  destruct (Add_within_capacity key value c Hwf Hcap) as (Hiff & Hit & _).
  split; [exact Hp|].
  destruct (fst (simplelru.Add key value c)) eqn:Hev.
  - destruct (proj1 Hiff eq_refl) as [Hn Hfull].
    unfold simplelru.GetOldest, simplelru.Contains, simplelru.Len,
      omap.Len, GoInt.len, simplelru.wf, omap.wf in *.
    destruct (simplelru.items c) as [|[k0 v0] m] eqn:Hm;
      [simpl in Hfull; lia|].
    simpl in Hit. simpl. inversion Hwf as [|? ? Hk0 Hnd]; subst.
    split.
    + intros key' Hne Hc. apply Peek_ext. rewrite Hit, Hm.
      rewrite lookup_snoc_other by auto. simpl.
      destruct (key_eq_dec k0 key') as [->|]; auto.
      exfalso. apply Get_found_iff in Hc. rewrite Hit, Keys_app in Hc.
      apply in_app_or in Hc as [Hc|[Hc|[]]];
        [contradiction | simpl in Hc; congruence].
    + intros key' Hne Hc Hc'. split; auto.
      apply Get_found_iff in Hc. simpl in Hc. destruct Hc as [Hc|Hc]; auto.
      exfalso. assert (Hin : snd (omap.Get key'
                   (simplelru.items (snd (simplelru.Add key value c))))
                 = true).
      { apply Get_found_iff. rewrite Hit, Keys_app. apply in_or_app. auto. }
      congruence.
  - split.
    + intros key' Hne _. apply Peek_ext. rewrite Hit.
      now rewrite lookup_snoc_other, lookup_Delete_other.
    + intros key' Hne Hc Hc'. exfalso.
      unfold simplelru.Contains in *. apply Get_found_iff in Hc.
      assert (Hin : snd (omap.Get key'
                   (simplelru.items (snd (simplelru.Add key value c))))
                 = true).
      { apply Get_found_iff. rewrite Hit, Keys_app. apply in_or_app. left.
        now apply Delete_other. }
      congruence.
Qed.

Lemma Keys_Delete key m :
  omap.wf m ->
  omap.Keys (omap.Delete key m) = List.remove key_eq_dec key (omap.Keys m).
Proof.
  unfold omap.wf. induction m as [|[k v] m IH]; simpl; auto.
  intros Hnd. inversion Hnd as [|? ? Hk Hm]; subst.
  destruct (key_eq_dec k key) as [Heq|Hne];
    destruct (key_eq_dec key k) as [Heq'|Hne']; try congruence.
  - subst k. symmetry. now apply notin_remove.
  - simpl. f_equal. now apply IH.
Qed.

Lemma removeElement_absent key c :
  ~ In key (simplelru.Keys c) -> simplelru.removeElement key c = c.
Proof.
  unfold simplelru.Keys, simplelru.removeElement, omap.Pop. intros Hn.
  apply lookup_none_iff in Hn. rewrite Hn. now destruct c.
Qed.

Lemma removeElement_notified key v c :
  omap.lookup key (simplelru.items c) = Some v ->
  simplelru.notified (simplelru.removeElement key c)
  = if simplelru.onEvict c then simplelru.notified c ++ [(key, v)]
    else simplelru.notified c.
Proof.
  unfold simplelru.removeElement, omap.Pop. intros ->. simpl.
  now destruct (simplelru.onEvict c).
Qed.

(** X2: [Remove(key)] reports whether the key was in the cache.  A key that
    is not there leaves the cache as it was.  A key that is there is taken
    out: it is no longer found, the entry count drops by one, the other
    keys keep their order and their values, and the callback, if there is
    one, is called once, with the key and the value it had. *)
Theorem lru_Remove_spec key c :
  simplelru.built c ->
  let r := simplelru.Remove key c in
  fst r = simplelru.Contains key c
  /\ simplelru.Contains key (snd r) = false
  /\ simplelru.Keys (snd r)
     = List.remove key_eq_dec key (simplelru.Keys c)
  /\ (forall key', key' <> key ->
      simplelru.Peek key' (snd r) = simplelru.Peek key' c)
  /\ simplelru.size (snd r) = simplelru.size c
  /\ (simplelru.Contains key c = false -> snd r = c)
  /\ (simplelru.Contains key c = true ->
      simplelru.Len (snd r) = simplelru.Len c - 1
      /\ simplelru.notified (snd r)
         = if simplelru.onEvict c
           then simplelru.notified c ++ [(key, fst (simplelru.Peek key c))]
           else simplelru.notified c).
Proof.
  intros Hb r. subst r. destruct (built_wf c Hb) as [Hwf _].
  split; [apply Remove_present|].
  split.
  { apply pool_Contains_false. unfold lru.holds, simplelru.Keys.
    rewrite Remove_items. now apply Delete_gone. }
  split.
  { unfold simplelru.Keys. rewrite Remove_items. now apply Keys_Delete. }
  split.
  { intros key' Hne. apply Peek_ext. rewrite Remove_items.
    now apply lookup_Delete_other. }
  split; [apply Remove_size|].
  split.
  - intros Hc. destruct (Remove_state key c) as [->|[-> _]]; auto.
    apply removeElement_absent. now apply pool_Contains_false.
  - intros Hc. split.
    + unfold simplelru.Len. rewrite Remove_items.
      apply Contains_iff in Hc. unfold omap.Len, GoInt.len.
      rewrite <- (Delete_length key (simplelru.items c) Hc). lia.
    + destruct (Remove_state key c) as [->|[_ Hn]].
      * apply Contains_iff in Hc.
        destruct (in_lookup_some key _ Hc) as [v Hv].
        rewrite (removeElement_notified key v c Hv), Peek_lookup, Hv.
        reflexivity.
      * apply Contains_iff in Hc. contradiction.
Qed.

(** X3: on an empty cache [GetOldest] and [RemoveOldest] report nothing
    found and [RemoveOldest] changes nothing.  Otherwise both return the
    same entry, the one at the head of [Keys()], with the value [Peek]
    gives for it; [RemoveOldest] takes exactly that entry out, leaving the
    rest of the order as it was. *)
Theorem lru_RemoveOldest_spec c :
  simplelru.built c ->
  fst (simplelru.RemoveOldest c) = simplelru.GetOldest c
  /\ (simplelru.Len c = 0 ->
      simplelru.RemoveOldest c = (zero, zero, false, c))
  /\ (0 < simplelru.Len c ->
      exists k v,
        simplelru.GetOldest c = (k, v, true)
        /\ simplelru.Keys c = k :: simplelru.Keys (snd (simplelru.RemoveOldest c))
        /\ simplelru.Peek k c = (v, true)
        /\ simplelru.Contains k (snd (simplelru.RemoveOldest c)) = false
        /\ simplelru.Len (snd (simplelru.RemoveOldest c))
           = simplelru.Len c - 1
        /\ forall key', key' <> k ->
             simplelru.Peek key' (snd (simplelru.RemoveOldest c))
             = simplelru.Peek key' c).
Proof.
  intros Hb. destruct (built_wf c Hb) as [Hwf _].
  split.
  { unfold simplelru.RemoveOldest, simplelru.GetOldest.
    now destruct (omap.GetAt 0 (simplelru.items c)). }
  split.
  - unfold simplelru.Len, omap.Len, GoInt.len, simplelru.RemoveOldest.
    destruct (simplelru.items c) as [|e m] eqn:Hm; simpl; [auto|lia].
  - intros Hpos.
    pose proof (removeOldest_items c) as Hit.
    rewrite <- RemoveOldest_state in Hit.
    unfold simplelru.Len, omap.Len, GoInt.len, simplelru.GetOldest,
      simplelru.Keys, simplelru.Contains, simplelru.wf, omap.wf in *.
    destruct (simplelru.items c) as [|[k v] m] eqn:Hm;
      [simpl in Hpos; lia|].
    exists k, v. rewrite Hit. cbn [tl].
    inversion Hwf as [|? ? Hk Hnd]; subst.
    repeat split.
    + rewrite Peek_lookup, Hm. simpl.
      destruct (key_eq_dec k k); congruence.
    + destruct (snd (omap.Get k m)) eqn:Hg; auto.
      apply Get_found_iff in Hg. contradiction.
    + cbn [length]. lia.
    + intros key' Hne. apply Peek_ext. rewrite Hit, Hm. simpl.
      destruct (key_eq_dec k key'); congruence.
Qed.

(** X5: [Get] changes the order only: whatever the key, every key is found
    or not as before and with the same value, and the entry count, the
    capacity and the record of callback calls are unchanged. *)
Theorem lru_Get_keeps_contents key c :
  simplelru.built c ->
  let c' := snd (simplelru.Get key c) in
  (forall key', simplelru.Peek key' c' = simplelru.Peek key' c)
  /\ (forall key', simplelru.Contains key' c' = simplelru.Contains key' c)
  /\ simplelru.Len c' = simplelru.Len c
  /\ simplelru.size c' = simplelru.size c
  /\ simplelru.notified c' = simplelru.notified c.
Proof.
  intros Hb c'. subst c'. destruct (built_wf c Hb) as [Hwf _].
  assert (Hl : forall key',
             omap.lookup key' (simplelru.items (snd (simplelru.Get key c)))
             = omap.lookup key' (simplelru.items c)).
  { intros key'. rewrite Get_items. now apply lookup_ToTail. }
  split; [intros key'; apply Peek_ext, Hl|].
  split.
  { intros key'. rewrite <- !Peek_found. f_equal. apply Peek_ext, Hl. }
  split; [apply Len_Get|]. split; [apply Get_size|].
  unfold simplelru.Get.
  destruct (simplelru.Peek key c) as [v ok]. now destruct ok.
Qed.

Lemma Purge_trace (l : omap.OrderedMap K V) cap cb tr :
  simplelru.Purge (simplelru.mkLRUG cap l cb tr)
  = simplelru.mkLRUG cap [] cb (tr ++ if cb then l else []).
Proof.
  unfold simplelru.Purge, omap.Items. cbn [simplelru.items].
  revert tr. induction l as [|[k v] l IH]; intros tr; simpl.
  - now destruct cb; rewrite app_nil_r.
  - destruct cb; unfold simplelru.with_items; simpl;
      destruct (key_eq_dec k k); try congruence; rewrite IH; auto.
    now rewrite <- app_assoc.
Qed.


(** X7: the observers of a cache agree: [Keys()] lists no key twice,
    [Len()] is the number of keys it lists, and [Contains] and [Peek] find
    exactly the keys it lists. *)
Theorem lru_Keys_unique c :
  simplelru.built c ->
  NoDup (simplelru.Keys c)
  /\ simplelru.Len c = Z.of_nat (length (simplelru.Keys c))
  /\ (forall key,
        simplelru.Contains key c = true <-> In key (simplelru.Keys c))
  /\ (forall key,
        snd (simplelru.Peek key c) = true <-> In key (simplelru.Keys c)).
Proof.
  intros Hb. destruct (built_wf c Hb) as [Hwf _].
  split; [exact Hwf|]. split.
  - unfold simplelru.Len, simplelru.Keys, omap.Len, GoInt.len, omap.Keys.
    now rewrite length_map.
  - split; intros key; apply Contains_iff.
Qed.

Lemma Add_state key value c :
  simplelru.Add key value c
  = let c2 := simplelru.with_items c
                (simplelru.added key value (simplelru.items c)) in
    if omap.Len (simplelru.items c2) >? simplelru.size c
    then (true, simplelru.removeOldest c2)
    else (false, c2).
Proof.
  unfold simplelru.Add, simplelru.added.
  destruct (snd (omap.Get key (simplelru.items c))) eqn:Hg; simpl.
  - now destruct (_ >? _).
  - rewrite ToTail_absent by (rewrite <- Get_found_iff; congruence).
    now destruct (_ >? _).
Qed.

(** X8: the callback and [Add]: when [Add] evicts, a cache with a callback
    calls it once, with the entry [GetOldest] returned before the call; in
    every other case (no eviction, or no callback) [Add] records no call,
    also when it overwrites the value of a key. *)
Theorem lru_Add_notifies_evicted key value c :
  simplelru.built c -> 1 <= simplelru.size c ->
  simplelru.notified (snd (simplelru.Add key value c))
  = if fst (simplelru.Add key value c) && simplelru.onEvict c
    then simplelru.notified c
         ++ [(fst (fst (simplelru.GetOldest c)),
              snd (fst (simplelru.GetOldest c)))]
    else simplelru.notified c.
Proof.
  intros Hb Hone. destruct (built_wf c Hb) as [Hwf Hcap].
  destruct (Add_within_capacity key value c Hwf Hcap) as (Hiff & _).
  rewrite Add_state in *. cbn zeta in *. cbn [simplelru.items
    simplelru.with_items] in *.
  destruct (_ >? _) eqn:Hev; cbn [fst snd andb] in *; auto.
  destruct (proj1 Hiff eq_refl) as [Hn Hfull].
  unfold simplelru.wf in Hwf.
  rewrite added_eq, Delete_absent by auto.
  unfold simplelru.GetOldest, simplelru.Len, omap.Len, GoInt.len in *.
  destruct (simplelru.items c) as [|[k0 v0] m] eqn:Hm;
    [simpl in Hfull; lia|].
  unfold simplelru.removeOldest, simplelru.removeElement, omap.Pop.
  simpl. destruct (key_eq_dec k0 k0); [|congruence].
  now destruct (simplelru.onEvict c).
Qed.

Lemma tl_skipn_snoc {A : Type} (a : nat) (p : list A) (x : A) :
  (a < length p)%nat -> tl (skipn a p ++ [x]) = skipn (S a) (p ++ [x]).
Proof.
  revert a. induction p as [|y p IH]; intros a Ha; simpl in Ha; [lia|].
  destruct a as [|a].
  - reflexivity.
  - change (skipn (S a) (y :: p)) with (skipn a p).
    change (skipn (S (S a)) ((y :: p) ++ [x])) with (skipn (S a) (p ++ [x])).
    apply IH. lia.
Qed.

Lemma in_keys_skipn key (n : nat) m :
  In key (omap.Keys (skipn n m)) -> In key (omap.Keys m).
Proof.
  intros Hi. rewrite <- (firstn_skipn n m), Keys_app.
  apply in_or_app. now right.
Qed.

Lemma run_adds_snoc (kvs : list (K * V)) k v c :
  simplelru.run (simplelru.adds (kvs ++ [(k, v)])) c
  = snd (simplelru.Add k v (simplelru.run (simplelru.adds kvs) c)).
Proof.
  unfold simplelru.run, simplelru.adds.
  now rewrite map_app, fold_left_app.
Qed.

(** X4: eviction is first in, first out: adding entries with distinct keys
    to a new cache of capacity C leaves exactly the last C of them, in the
    order they were added. *)
Theorem lru_Add_distinct_keeps_newest C cb c0 (kvs : list (K * V)) :
  simplelru.NewLRUG C cb = Ok c0 ->
  NoDup (map fst kvs) ->
  simplelru.items (simplelru.run (simplelru.adds kvs) c0)
  = skipn (length kvs - Z.to_nat C) kvs
  /\ simplelru.Keys (simplelru.run (simplelru.adds kvs) c0)
     = skipn (length kvs - Z.to_nat C) (map fst kvs).
Proof.
  intros Hnew Hnd. apply NewLRUG_ok in Hnew as [Hpos ->].
  assert (Hit : simplelru.items
                  (simplelru.run (simplelru.adds kvs)
                     (simplelru.mkLRUG C [] cb []))
                = skipn (length kvs - Z.to_nat C) kvs
                /\ simplelru.size
                     (simplelru.run (simplelru.adds kvs)
                        (simplelru.mkLRUG C [] cb [])) = C).
  { induction kvs as [|[k v] kvs IH] using rev_ind.
    - split; reflexivity.
    - rewrite map_app in Hnd. simpl in Hnd.
      pose proof (NoDup_remove_1 _ _ _ Hnd) as Hnd'.
      pose proof (NoDup_remove_2 _ _ _ Hnd) as Hk.
      rewrite app_nil_r in Hnd', Hk.
      destruct (IH Hnd') as [Hi Hs]. clear IH.
      rewrite run_adds_snoc.
      set (c := simplelru.run (simplelru.adds kvs)
                  (simplelru.mkLRUG C [] cb [])) in *.
      rewrite Add_size. split; [|exact Hs].
      assert (Hwf : simplelru.wf c).
      { unfold simplelru.wf. rewrite Hi. now apply skipn_wf. }
      assert (Hn : ~ In k (simplelru.Keys c)).
      { unfold simplelru.Keys. rewrite Hi. intros Hin.
        apply Hk. eapply in_keys_skipn; eauto. }
      assert (Hlen : simplelru.Len c
                     = Z.of_nat (length kvs - (length kvs - Z.to_nat C))).
      { unfold simplelru.Len, omap.Len, GoInt.len.
        now rewrite Hi, length_skipn. }
      rewrite length_app. simpl length.
      destruct (Z_lt_le_dec (Z.of_nat (length kvs)) C) as [Hlt|Hge].
      + rewrite Add_fresh by (auto; lia). simpl. rewrite Hi.
        replace (length kvs - Z.to_nat C)%nat with 0%nat by lia.
        replace (length kvs + 1 - Z.to_nat C)%nat with 0%nat by lia.
        reflexivity.
      + assert (Hcap : simplelru.within_capacity c)
          by (unfold simplelru.within_capacity; lia).
        destruct (Add_within_capacity k v c Hwf Hcap) as (Hiff & Hitems & _).
        assert (Hev : fst (simplelru.Add k v c) = true)
          by (apply Hiff; split; [auto | lia]).
        rewrite Hev in Hitems. rewrite Hitems, Hi.
        replace (length kvs + 1 - Z.to_nat C)%nat
          with (S (length kvs - Z.to_nat C)) by lia.
        apply tl_skipn_snoc. clear - Hpos Hge.
        unfold omap.Item in *. lia. }
  destruct Hit as [Hi _]. split; [exact Hi|].
  unfold simplelru.Keys, omap.Keys. rewrite Hi.
  symmetry. apply skipn_map.
Qed.

End LRUMore.

(** * Further properties of the two-queue cache *)
Section TwoQueueMore.

Context {K V : Type} `{Comparable K} `{Zero K} `{Zero V}.
Implicit Types (c : lru.TwoQueueCacheG K V) (p : simplelru.LRUG K V)
  (k key x : K) (v value : V).

(** Without a callback every operation of a pool only replaces its
    entries. *)
Lemma removeElement_quiet key p :
  simplelru.onEvict p = false ->
  simplelru.removeElement key p
  = simplelru.with_items p (omap.Delete key (simplelru.items p)).
Proof.
  intros Hq. unfold simplelru.removeElement, omap.Pop.
  destruct (omap.lookup key (simplelru.items p)) as [v|] eqn:Hl; simpl.
  - now rewrite Hq.
  - apply lookup_none_iff in Hl. now rewrite Delete_absent.
Qed.

Lemma removeOldest_quiet p :
  simplelru.onEvict p = false ->
  simplelru.removeOldest p = simplelru.with_items p (tl (simplelru.items p)).
Proof.
  intros Hq. unfold simplelru.removeOldest. rewrite GetAt_0.
  destruct (hd_error (simplelru.items p)) as [e|] eqn:Hh.
  - rewrite removeElement_quiet by auto. now rewrite Delete_head.
  - destruct p as [sz m cb tr]. simpl in *. now destruct m.
Qed.

Lemma Add_shell key value p :
  simplelru.onEvict p = false ->
  lru.pool_shell (snd (simplelru.Add key value p)) = lru.pool_shell p.
Proof.
  intros Hq. rewrite Add_state. cbn zeta.
  destruct (_ >? _); cbn [snd]; auto.
  now rewrite removeOldest_quiet.
Qed.

Lemma Remove_shell key p :
  simplelru.onEvict p = false ->
  lru.pool_shell (snd (simplelru.Remove key p)) = lru.pool_shell p.
Proof.
  intros Hq. destruct (Remove_state key p) as [->|[-> _]]; auto.
  now rewrite removeElement_quiet.
Qed.

Lemma RemoveOldest_shell p :
  simplelru.onEvict p = false ->
  lru.pool_shell (snd (simplelru.RemoveOldest p)) = lru.pool_shell p.
Proof.
  intros Hq. now rewrite RemoveOldest_state, removeOldest_quiet.
Qed.

Lemma Get_shell key p :
  lru.pool_shell (snd (simplelru.Get key p)) = lru.pool_shell p.
Proof.
  unfold simplelru.Get. destruct (simplelru.Peek key p) as [v ok].
  now destruct ok.
Qed.

Lemma Purge_quiet p :
  simplelru.onEvict p = false -> simplelru.Purge p = lru.pool_shell p.
Proof.
  destruct p as [sz m cb tr]. simpl. intros ->.
  rewrite Purge_trace. unfold lru.pool_shell. simpl. now rewrite app_nil_r.
Qed.

Lemma shell_quiet c c' : lru.shell c' = lru.shell c -> lru.quiet c -> lru.quiet c'.
Proof.
  unfold lru.quiet. intros Hs (Hqr & Hqf & Hqg).
  pose proof (f_equal (fun s => simplelru.onEvict (lru.recent s)) Hs) as Hr.
  pose proof (f_equal (fun s => simplelru.onEvict (lru.frequent s)) Hs)
    as Hf.
  pose proof (f_equal (fun s => simplelru.onEvict (lru.recentEvict s)) Hs)
    as Hg.
  simpl in Hr, Hf, Hg. repeat split; congruence.
Qed.

Lemma ensureSpace_shell hint c :
  lru.quiet c -> lru.shell (lru.ensureSpace hint c) = lru.shell c.
Proof.
  intros (Hqr & Hqf & Hqg).
  destruct (ensureSpace_cases hint c)
    as [[_ ->]|[(_ & e & _ & ->)|[_ ->]]]; auto; unfold lru.shell; simpl.
  - now rewrite RemoveOldest_shell, Add_shell.
  - now rewrite RemoveOldest_shell.
Qed.

Lemma Get_shell_cache key c :
  lru.quiet c -> lru.shell (snd (lru.Get key c)) = lru.shell c.
Proof.
  intros (Hqr & Hqf & Hqg).
  destruct (Get_cases key c)
    as [(_ & v & _ & ->)|[(_ & _ & v & _ & ->)|(_ & _ & ->)]]; auto;
    unfold lru.shell; simpl.
  - now rewrite Get_shell.
  - now rewrite Remove_shell, Add_shell.
Qed.

Lemma Add_shell_cache key value c :
  lru.quiet c -> lru.shell (lru.Add key value c) = lru.shell c.
Proof.
  intros Hq. pose proof Hq as (Hqr & Hqf & Hqg). unfold lru.Add.
  destruct (simplelru.Contains key (lru.frequent c));
    [|destruct (simplelru.Contains key (lru.recent c));
      [|destruct (simplelru.Contains key (lru.recentEvict c))]].
  - unfold lru.shell; simpl. now rewrite Add_shell.
  - unfold lru.shell; simpl. now rewrite Remove_shell, Add_shell.
  - pose proof (ensureSpace_shell true c Hq) as Hs.
    destruct (shell_quiet _ _ Hs Hq) as (Hqr1 & Hqf1 & Hqg1).
    rewrite <- Hs. unfold lru.shell; simpl.
    now rewrite Remove_shell, Add_shell.
  - pose proof (ensureSpace_shell false c Hq) as Hs.
    destruct (shell_quiet _ _ Hs Hq) as (Hqr1 & Hqf1 & Hqg1).
    rewrite <- Hs. unfold lru.shell; simpl.
    now rewrite Add_shell.
Qed.

Lemma Remove_shell_cache key c :
  lru.quiet c -> lru.shell (lru.Remove key c) = lru.shell c.
Proof.
  intros (Hqr & Hqf & Hqg). unfold lru.Remove.
  pose proof (Remove_shell key (lru.frequent c) Hqf) as Hf.
  pose proof (Remove_shell key (lru.recent c) Hqr) as Hr.
  pose proof (Remove_shell key (lru.recentEvict c) Hqg) as Hg.
  destruct (simplelru.Remove key (lru.frequent c)) as [pf f].
  simpl in *. destruct pf; [unfold lru.shell; simpl; congruence|].
  destruct (simplelru.Remove key (lru.recent c)) as [pr r].
  simpl in *. destruct pr; [unfold lru.shell; simpl; congruence|].
  destruct (simplelru.Remove key (lru.recentEvict c)) as [pg g].
  simpl in *. destruct pg; unfold lru.shell; simpl; congruence.
Qed.

Lemma Purge_shell_cache c : lru.quiet c -> lru.Purge c = lru.shell c.
Proof.
  intros (Hqr & Hqf & Hqg). unfold lru.Purge, lru.shell. simpl.
  now rewrite !Purge_quiet.
Qed.

Lemma shell_idem c : lru.shell (lru.shell c) = lru.shell c.
Proof. reflexivity. Qed.

Lemma exec_shell (o : lru.op K V) c :
  lru.quiet c -> lru.shell (lru.exec o c) = lru.shell c.
Proof.
  intros Hq. destruct o; simpl; auto.
  - now apply Get_shell_cache.
  - now apply Add_shell_cache.
  - now apply Remove_shell_cache.
  - now rewrite Purge_shell_cache.
Qed.

Lemma run_shell (os : list (lru.op K V)) c :
  lru.quiet c -> lru.shell (lru.run os c) = lru.shell c.
Proof.
  revert c. induction os as [|o os IH]; intros c Hq; simpl; auto.
  pose proof (exec_shell o c Hq) as Hs.
  change (lru.run (o :: os) c) with (lru.run os (lru.exec o c)).
  rewrite IH; auto. eapply shell_quiet; eauto.
Qed.

Lemma New2QParamsG_shell sz recentRatio ghostRatio c0 :
  lru.New2QParamsG sz recentRatio ghostRatio = Ok c0 ->
  lru.quiet c0 /\ lru.shell c0 = c0.
Proof.
  intros Hnew. apply New2QParamsG_ok in Hnew as (_ & _ & ->).
  repeat split.
Qed.

(** X13: [Purge] brings a cache back to the state in which it was built,
    whatever was done to it before: the same sizes, three empty pools. *)
Theorem twoq_Purge_restores sz recentRatio ghostRatio c0
  (os : list (lru.op K V)) :
  lru.New2QParamsG sz recentRatio ghostRatio = Ok c0 ->
  lru.Purge (lru.run os c0) = c0
  /\ lru.Len (lru.Purge (lru.run os c0)) = 0
  /\ lru.Keys (lru.Purge (lru.run os c0)) = [].
Proof.
  intros Hnew. pose proof Hnew as Hok.
  apply New2QParamsG_shell in Hnew as [Hq Hs].
  assert (Heq : lru.Purge (lru.run os c0) = c0).
  { rewrite Purge_shell_cache.
    - now rewrite run_shell.
    - eapply shell_quiet; [apply run_shell|]; auto. }
  rewrite Heq. apply New2QParamsG_ok in Hok as (_ & _ & ->).
  repeat split.
Qed.

Lemma pool_Add_cap key value p :
  simplelru.wf p -> simplelru.within_capacity p ->
  simplelru.within_capacity (snd (simplelru.Add key value p)).
Proof. intros Hwf Hcap. apply (Add_within_capacity key value p Hwf Hcap). Qed.

Lemma pool_Remove_cap key p :
  simplelru.within_capacity p ->
  simplelru.within_capacity (snd (simplelru.Remove key p)).
Proof.
  unfold simplelru.within_capacity. rewrite Len_Remove, Remove_size.
  destruct (simplelru.Contains key p); lia.
Qed.

Lemma pool_RemoveOldest_cap p :
  0 <= simplelru.size p -> simplelru.within_capacity p ->
  simplelru.within_capacity (snd (simplelru.RemoveOldest p)).
Proof.
  unfold simplelru.within_capacity.
  rewrite Len_RemoveOldest, removeOldest_size_state. lia.
Qed.

Lemma pool_Get_cap key p :
  simplelru.within_capacity p ->
  simplelru.within_capacity (snd (simplelru.Get key p)).
Proof.
  unfold simplelru.within_capacity. now rewrite Len_Get, Get_size.
Qed.

Lemma pool_Purge_cap p :
  0 <= simplelru.size p -> simplelru.within_capacity (simplelru.Purge p).
Proof.
  unfold simplelru.within_capacity, simplelru.Len.
  now rewrite Purge_items, Purge_size.
Qed.

Lemma ensureSpace_caps hint c :
  lru.inv c -> lru.pools_within_capacity c ->
  lru.pools_within_capacity (lru.ensureSpace hint c).
Proof.
  intros [Hrw Hfw Hgw Hrs Hfs Hgs _ _ _] (Hr & Hf & Hg).
  destruct (ensureSpace_cases hint c)
    as [[_ ->]|[(_ & e & _ & ->)|[_ ->]]]; unfold lru.pools_within_capacity;
    simpl; auto.
  - repeat split; auto.
    + apply pool_RemoveOldest_cap; auto; lia.
    + now apply pool_Add_cap.
  - repeat split; auto. apply pool_RemoveOldest_cap; auto; lia.
Qed.

Lemma exec_caps (o : lru.op K V) c :
  lru.inv c -> lru.pools_within_capacity c ->
  lru.pools_within_capacity (lru.exec o c).
Proof.
  intros Hinv Hcaps. pose proof Hcaps as (Hr & Hf & Hg).
  pose proof Hinv as [Hrw Hfw Hgw Hrs Hfs Hgs _ _ _].
  destruct o; simpl; auto.
  - destruct (Get_cases key c)
      as [(_ & v & _ & ->)|[(_ & _ & v & _ & ->)|(_ & _ & ->)]]; auto;
      unfold lru.pools_within_capacity; simpl; repeat split; auto.
    + now apply pool_Get_cap.
    + now apply pool_Remove_cap.
    + now apply pool_Add_cap.
  - unfold lru.Add.
    destruct (simplelru.Contains key (lru.frequent c));
      [|destruct (simplelru.Contains key (lru.recent c));
        [|destruct (simplelru.Contains key (lru.recentEvict c))]].
    + unfold lru.pools_within_capacity; simpl; repeat split; auto.
      now apply pool_Add_cap.
    + unfold lru.pools_within_capacity; simpl; repeat split; auto.
      * now apply pool_Remove_cap.
      * now apply pool_Add_cap.
    + pose proof (ensureSpace_inv true c Hinv)
        as [Hrw1 Hfw1 Hgw1 _ _ _ _ _ _].
      destruct (ensureSpace_caps true c Hinv Hcaps) as (Hr1 & Hf1 & Hg1).
      unfold lru.pools_within_capacity; simpl; repeat split; auto.
      * now apply pool_Add_cap.
      * now apply pool_Remove_cap.
    + pose proof (ensureSpace_inv false c Hinv)
        as [Hrw1 Hfw1 Hgw1 _ _ _ _ _ _].
      destruct (ensureSpace_caps false c Hinv Hcaps) as (Hr1 & Hf1 & Hg1).
      unfold lru.pools_within_capacity; simpl; repeat split; auto.
      now apply pool_Add_cap.
  - unfold lru.Remove.
    pose proof (pool_Remove_cap key _ Hf) as Hf'.
    pose proof (pool_Remove_cap key _ Hr) as Hr'.
    pose proof (pool_Remove_cap key _ Hg) as Hg'.
    destruct (simplelru.Remove key (lru.frequent c)) as [pf f].
    simpl in *. destruct pf; [repeat split; auto|].
    destruct (simplelru.Remove key (lru.recent c)) as [pr r].
    simpl in *. destruct pr; [repeat split; auto|].
    destruct (simplelru.Remove key (lru.recentEvict c)) as [pg g].
    simpl in *. destruct pg; repeat split; auto.
  - unfold lru.Purge, lru.pools_within_capacity. simpl.
    repeat split; apply pool_Purge_cap; lia.
Qed.

Lemma run_caps (os : list (lru.op K V)) c :
  lru.inv c -> lru.pools_within_capacity c ->
  lru.pools_within_capacity (lru.run os c).
Proof.
  revert c. induction os as [|o os IH]; intros c Hinv Hcaps; simpl; auto.
  apply IH; [now apply exec_inv | now apply exec_caps].
Qed.

(** X15: each pool stays within its own capacity in every state a history
    of calls reaches, for every accepted size and ratios: [recent] and
    [frequent] hold at most [size] entries each and the ghost pool at most
    [int(float64(size) * ghostRatio)] keys, and [size] and [recentSize]
    never change. *)
Theorem twoq_pools_within_capacity sz recentRatio ghostRatio c0
  (os : list (lru.op K V)) :
  lru.New2QParamsG sz recentRatio ghostRatio = Ok c0 ->
  let c := lru.run os c0 in
  lru.size c = sz
  /\ lru.recentSize c
     = Float64.to_int (Float64.mul (Float64.of_int sz) recentRatio)
  /\ simplelru.Len (lru.recent c) <= sz
  /\ simplelru.Len (lru.frequent c) <= sz
  /\ simplelru.Len (lru.recentEvict c)
     <= Float64.to_int (Float64.mul (Float64.of_int sz) ghostRatio).
Proof.
  intros Hnew c.
  pose proof (New2QParamsG_inv _ _ _ _ Hnew) as Hinv0.
  destruct (New2QParamsG_shell _ _ _ _ Hnew) as [Hq Hs0].
  pose proof (run_shell os c0 Hq) as Hs. fold c in Hs. rewrite Hs0 in Hs.
  apply New2QParamsG_ok in Hnew as (Hpos & Hpos' & Hc0).
  assert (Hcaps0 : lru.pools_within_capacity c0).
  { rewrite Hc0. unfold lru.pools_within_capacity, simplelru.within_capacity,
      simplelru.Len, omap.Len, GoInt.len. simpl. lia. }
  destruct (run_caps os c0 Hinv0 Hcaps0) as (Hr & Hf & Hg). fold c in Hr, Hf, Hg.
  unfold simplelru.within_capacity in *.
  rewrite Hc0 in Hs.
  pose proof (f_equal lru.size Hs) as E1.
  pose proof (f_equal lru.recentSize Hs) as E2.
  pose proof (f_equal (fun s => simplelru.size (lru.recent s)) Hs) as E3.
  pose proof (f_equal (fun s => simplelru.size (lru.frequent s)) Hs) as E4.
  pose proof (f_equal (fun s => simplelru.size (lru.recentEvict s)) Hs) as E5.
  simpl in E1, E2, E3, E4, E5.
  rewrite E3 in Hr. rewrite E4 in Hf. rewrite E5 in Hg.
  repeat split; auto.
Qed.

Lemma Add_last key value p :
  simplelru.wf p -> 1 <= simplelru.size p ->
  exists m, simplelru.items (snd (simplelru.Add key value p))
            = m ++ [(key, value)].
Proof.
  intros Hwf Hone. rewrite Add_items, added_eq by auto.
  set (d := omap.Delete key (simplelru.items p)).
  destruct (_ >? _) eqn:Hev; [|now exists d].
  destruct d as [|e d'].
  - unfold omap.Len, GoInt.len in Hev. simpl in Hev. lia.
  - now exists d'.
Qed.

(** X9: [Get] returns what [Peek] returns.  A key found in [recent] is
    moved to [frequent], as its newest entry and with its value, and the
    ghost pool is untouched; a key found in [frequent] becomes the newest
    entry there and [recent] and the ghost pool are untouched; a key that
    is not cached (a ghost included) leaves the cache as it was. *)
Theorem twoq_Get_promotes key c :
  lru.reachable c ->
  let c' := snd (lru.Get key c) in
  fst (lru.Get key c) = lru.Peek key c
  /\ (lru.holds key (lru.recent c) ->
      lru.holds key (lru.frequent c')
      /\ ~ lru.holds key (lru.recent c')
      /\ lru.Peek key c' = lru.Peek key c
      /\ last (simplelru.Keys (lru.frequent c')) zero = key
      /\ lru.recentEvict c' = lru.recentEvict c)
  /\ (lru.holds key (lru.frequent c) ->
      simplelru.Keys (lru.frequent c')
      = List.remove key_eq_dec key (simplelru.Keys (lru.frequent c)) ++ [key]
      /\ lru.recent c' = lru.recent c
      /\ lru.recentEvict c' = lru.recentEvict c)
  /\ (lru.Contains key c = false -> c' = c).
Proof.
  intros Hre c'. subst c'. apply reachable_inv in Hre as Hinv.
  pose proof Hinv as [Hrw Hfw Hgw Hrs Hfs Hgs Hrf Hrg Hfg].
  destruct (Get_cases key c)
    as [(Hf & v & Hv & ->)|[(Hnf & Hr & v & Hv & ->)|(Hnf & Hnr & ->)]];
    cbn [fst snd].
  - split; [unfold lru.Peek; now rewrite Hv|].
    split; [intros Hr; exfalso; apply (Hrf key); auto|].
    split.
    + intros _. simpl. repeat split.
      unfold simplelru.Keys. rewrite Get_items, ToTail_keys by auto.
      now rewrite Keys_Delete.
    + unfold lru.Contains. intros Hc. apply orb_false_iff in Hc as [Hc _].
      apply pool_Contains_false in Hc. contradiction.
  - destruct (Add_post key v (lru.frequent c) Hfw Hfs)
      as (_ & _ & Hin & Hp & _).
    destruct (pool_Remove key (lru.recent c) Hrw) as (_ & _ & Hgone & _).
    destruct (Add_last key v (lru.frequent c) Hfw Hfs) as [m Hm].
    assert (Hpc : lru.Peek key c = (v, true)).
    { unfold lru.Peek. now rewrite (pool_Peek_miss key _ Hnf), Hv. }
    split; [now rewrite Hpc|].
    split.
    + intros _. simpl. repeat split; auto.
      * rewrite Hpc. unfold lru.Peek. simpl. now rewrite Hp.
      * unfold simplelru.Keys. rewrite Hm, Keys_app. apply last_last.
    + split; [intros Hf; contradiction|].
      unfold lru.Contains. intros Hc. apply orb_false_iff in Hc as [_ Hc].
      apply pool_Contains_false in Hc. contradiction.
  - destruct (Get_miss key c Hnf Hnr) as [_ Hp].
    split; [now rewrite Hp|]. repeat split; intros; auto; contradiction.
Qed.

Lemma NoDup_append {A : Type} (l1 l2 : list A) :
  NoDup l1 -> NoDup l2 -> (forall a, In a l1 -> ~ In a l2) ->
  NoDup (l1 ++ l2).
Proof.
  intros H1' H2' Hd. induction l1 as [|a l1 IH]; simpl; auto.
  inversion H1' as [|? ? Ha Hl1]; subst. constructor.
  - rewrite in_app_iff. intros [Hi|Hi]; [contradiction|].
    apply (Hd a); [now left | exact Hi].
  - apply IH; auto. intros b Hb. apply Hd. now right.
Qed.

(** X11: the observers of the two-queue cache agree: [Keys()] lists no key
    twice, [Contains] and [Peek] find exactly the keys it lists, and a key
    of the ghost pool is never among them. *)
Theorem twoq_Keys_unique c :
  lru.reachable c ->
  NoDup (lru.Keys c)
  /\ (forall key, In key (lru.Keys c) <-> lru.Contains key c = true)
  /\ (forall key, snd (lru.Peek key c) = lru.Contains key c)
  /\ (forall key, lru.holds key (lru.recentEvict c) ->
        ~ In key (lru.Keys c)
        /\ lru.Contains key c = false
        /\ lru.Peek key c = (zero, false)).
Proof.
  intros Hre. apply reachable_inv in Hre as Hinv.
  pose proof Hinv as [Hrw Hfw Hgw Hrs Hfs Hgs Hrf Hrg Hfg].
  assert (Hmem : forall key,
             In key (lru.Keys c) <-> lru.Contains key c = true).
  { intros key. unfold lru.Keys, lru.Contains.
    rewrite in_app_iff, orb_true_iff, !pool_Contains_true. reflexivity. }
  split.
  { unfold lru.Keys. apply NoDup_append; auto.
    intros a Ha Hb. apply (Hrf a); auto. }
  split; [exact Hmem|]. split.
  { intros key. unfold lru.Peek, lru.Contains.
    rewrite <- !Peek_found.
    destruct (simplelru.Peek key (lru.frequent c)) as [v ok].
    now destruct ok. }
  intros key Hg.
  assert (Hnf : ~ lru.holds key (lru.frequent c))
    by (intros Hf; apply (Hfg key); auto).
  assert (Hnr : ~ lru.holds key (lru.recent c))
    by (intros Hr; apply (Hrg key); auto).
  assert (Hc : lru.Contains key c = false).
  { unfold lru.Contains. apply orb_false_iff.
    now rewrite !pool_Contains_false. }
  repeat split; auto.
  - rewrite Hmem, Hc. discriminate.
  - now apply Get_miss.
Qed.



(** X14: a burst of new keys does not touch [frequent] while [recent] is
    at or above its target: when [recent] is not empty and holds at least
    [recentSize] entries, the [Add] of a key that is in none of the pools
    leaves [frequent] exactly as it was; the room it needs, if any, is
    taken from [recent]. *)
Theorem twoq_new_key_spares_frequent key value c :
  simplelru.Contains key (lru.frequent c) = false ->
  simplelru.Contains key (lru.recent c) = false ->
  simplelru.Contains key (lru.recentEvict c) = false ->
  0 < simplelru.Len (lru.recent c) ->
  lru.recentSize c <= simplelru.Len (lru.recent c) ->
  lru.frequent (lru.Add key value c) = lru.frequent c
  /\ (lru.ensureSpace false c = c
      \/ simplelru.Keys (lru.recent (lru.ensureSpace false c))
         = tl (simplelru.Keys (lru.recent c))).
Proof.
  intros Hf Hr Hg Hpos Htarget. unfold lru.Add. rewrite Hf, Hr, Hg.
  assert (Hcond : (simplelru.Len (lru.recent c) >? 0)
                  && ((simplelru.Len (lru.recent c) >? lru.recentSize c)
                      || ((simplelru.Len (lru.recent c) =? lru.recentSize c)
                          && negb false)) = true).
  { apply andb_true_iff. split; [lia|]. apply orb_true_iff.
    destruct (Z.eq_dec (simplelru.Len (lru.recent c)) (lru.recentSize c));
      [right; apply andb_true_iff; split; [lia|reflexivity] | left; lia]. }
  unfold lru.ensureSpace.
  destruct (GoInt.add _ _ <? lru.size c); [simpl; auto|].
  rewrite Hcond.
  pose proof (RemoveOldest_state (lru.recent c)) as Hst.
  destruct (simplelru.RemoveOldest (lru.recent c)) as [[[k0 v0] ok] r].
  simpl in Hst. subst r. simpl. split; auto. right.
  unfold simplelru.Keys. rewrite removeOldest_items.
  unfold omap.Keys. now destruct (simplelru.items (lru.recent c)).
Qed.

Lemma run_sized sz recentRatio ghostRatio c0 (os : list (lru.op K V)) :
  lru.New2QParamsG sz recentRatio ghostRatio = Ok c0 ->
  lru.recentSize c0 < sz <= GoInt.max_int ->
  lru.inv (lru.run os c0) /\ lru.sized (lru.run os c0).
Proof.
  intros Hnew Hsz. pose proof (New2QParamsG_inv _ _ _ _ Hnew) as Hinv0.
  assert (Hsz0 : lru.sized c0).
  { apply New2QParamsG_ok in Hnew as (Hs & He & ->).
    simpl in Hsz. constructor; simpl; try lia.
    unfold simplelru.Len, omap.Len, GoInt.len. simpl. lia. }
  clear Hnew Hsz. revert c0 Hinv0 Hsz0.
  induction os as [|o os IH]; intros c0 Hinv0 Hsz0; simpl; auto.
  apply IH; [now apply exec_inv|].
  destruct o; simpl; auto.
  - now apply Get_sized.
  - now apply Add_sized.
  - now apply Remove_sized.
  - now apply Purge_sized.
Qed.

Lemma Contains_ext key p p' :
  omap.lookup key (simplelru.items p') = omap.lookup key (simplelru.items p) ->
  simplelru.Contains key p' = simplelru.Contains key p.
Proof.
  intros Hl. rewrite <- !Peek_found. f_equal. now apply Peek_ext.
Qed.

(** X10: in a cache whose target for [recent] is below its size, [Get]
    evicts nothing: whatever the key asked for, every key is cached or not
    as before and with the same value, [Len()] is unchanged and the ghost
    pool is untouched. *)
Theorem twoq_Get_keeps_contents sz recentRatio ghostRatio c0
  (os : list (lru.op K V)) key :
  lru.New2QParamsG sz recentRatio ghostRatio = Ok c0 ->
  lru.recentSize c0 < sz <= GoInt.max_int ->
  let c := lru.run os c0 in
  let c' := snd (lru.Get key c) in
  (forall key', lru.Peek key' c' = lru.Peek key' c)
  /\ (forall key', lru.Contains key' c' = lru.Contains key' c)
  /\ lru.Len c' = lru.Len c
  /\ lru.recentEvict c' = lru.recentEvict c.
Proof.
  intros Hnew Hsz c c'.
  destruct (run_sized _ _ _ _ os Hnew Hsz) as [Hinv Hsized].
  fold c in Hinv, Hsized.
  pose proof Hinv as [Hrw Hfw Hgw Hrs Hfs Hgs Hrf Hrg Hfg].
  pose proof Hsized as [Hsr Hsf Htg Hint Hlen].
  assert (Hpeek : forall key', lru.Peek key' c' = lru.Peek key' c
                               /\ lru.recentEvict c' = lru.recentEvict c
                               /\ lru.Len c' = lru.Len c).
  { intros key'. subst c'.
    destruct (Get_cases key c)
      as [(Hf & v & Hv & ->)|[(Hnf & Hr & v & Hv & ->)|(_ & _ & ->)]];
      cbn [snd]; auto.
    - repeat split; auto.
      + unfold lru.Peek. simpl.
        rewrite (Peek_ext key' (lru.frequent c)); auto.
        rewrite Get_items. now apply lookup_ToTail.
      + unfold lru.Len. simpl. now rewrite Len_Get.
    - pose proof (Len_holds key _ Hr) as Hone.
      pose proof (Len_nonneg (lru.frequent c)) as Hf0.
      assert (Hfresh : simplelru.Add key v (lru.frequent c)
                       = (false,
                          simplelru.with_items (lru.frequent c)
                            (simplelru.items (lru.frequent c)
                             ++ [(key, v)])))
        by (apply Add_fresh; auto; lia).
      repeat split; auto.
      + destruct (key_eq_dec key' key) as [->|Hne].
        * destruct (Add_post key v (lru.frequent c) Hfw Hfs)
            as (_ & _ & _ & Hp & _).
          unfold lru.Peek. simpl.
          now rewrite Hp, (pool_Peek_miss key _ Hnf), Hv.
        * unfold lru.Peek. simpl.
          rewrite (Peek_ext key' (lru.frequent c)
                     (snd (simplelru.Add key v (lru.frequent c)))),
            (Peek_ext key' (lru.recent c)
               (snd (simplelru.Remove key (lru.recent c)))); auto.
          -- rewrite Remove_items. now apply lookup_Delete_other.
          -- rewrite Hfresh. simpl. now apply lookup_snoc_other.
      + unfold lru.Len. simpl.
        apply pool_Contains_true in Hr as Hrc.
        rewrite Len_Remove, Hrc, Len_Add_absent by (auto; lia).
        unfold GoInt.add. apply f_equal. lia. }
  split; [intros key'; apply Hpeek|].
  split.
  - intros key'. destruct (Hpeek key') as (Hp & _).
    destruct (run_sized _ _ _ _ os Hnew Hsz) as [_ _].
    assert (Hc : forall s, lru.Contains key' s = snd (lru.Peek key' s)).
    { intros s. unfold lru.Peek, lru.Contains. rewrite <- !Peek_found.
      destruct (simplelru.Peek key' (lru.frequent s)) as [w ok].
      now destruct ok. }
    now rewrite !Hc, Hp.
  - destruct (Hpeek key) as (_ & Hg & Hl). auto.
Qed.

Lemma lost_head k (m : omap.OrderedMap K V) :
  In k (omap.Keys m) -> ~ In k (omap.Keys (tl m)) ->
  hd_error (omap.Keys m) = Some k.
Proof.
  destruct m as [|[k0 v0] m]; simpl; [tauto|].
  intros [->|Hi] Hn; [reflexivity | contradiction].
Qed.

(** [ensureSpace] takes at most one key out of the cache. *)
Lemma ensureSpace_loses_one hint c k1 k2 :
  lru.inv c ->
  lru.Contains k1 c = true ->
  lru.Contains k1 (lru.ensureSpace hint c) = false ->
  lru.Contains k2 c = true ->
  lru.Contains k2 (lru.ensureSpace hint c) = false ->
  k1 = k2.
Proof.
  intros Hinv. unfold lru.Contains.
  rewrite !orb_true_iff, !orb_false_iff, !pool_Contains_true,
    !pool_Contains_false.
  destruct (ensureSpace_cases hint c)
    as [[_ ->]|[(_ & e & _ & ->)|[_ ->]]]; simpl.
  - tauto.
  - unfold lru.holds, simplelru.Keys.
    rewrite RemoveOldest_state, removeOldest_items.
    intros [H1'|H1'] [Hn1 Hn1'] [H2'|H2'] [Hn2 Hn2']; try contradiction.
    pose proof (lost_head _ _ H1' Hn1') as E1.
    pose proof (lost_head _ _ H2' Hn2') as E2. congruence.
  - unfold lru.holds, simplelru.Keys.
    rewrite RemoveOldest_state, removeOldest_items.
    intros [H1'|H1'] [Hn1 Hn1'] [H2'|H2'] [Hn2 Hn2']; try contradiction.
    pose proof (lost_head _ _ H1' Hn1) as E1.
    pose proof (lost_head _ _ H2' Hn2) as E2. congruence.
Qed.

(** X16: in a cache whose target for [recent] is below its size, one [Add]
    costs at most one cached key: two keys that were cached before the
    call and are not cached after it are the same key; and an [Add] of a
    key that is already cached costs none. *)
Theorem twoq_Add_evicts_at_most_one sz recentRatio ghostRatio c0
  (os : list (lru.op K V)) key value :
  lru.New2QParamsG sz recentRatio ghostRatio = Ok c0 ->
  lru.recentSize c0 < sz <= GoInt.max_int ->
  let c := lru.run os c0 in
  let c' := lru.Add key value c in
  (forall k1 k2,
      lru.Contains k1 c = true -> lru.Contains k1 c' = false ->
      lru.Contains k2 c = true -> lru.Contains k2 c' = false ->
      k1 = k2)
  /\ (lru.Contains key c = true ->
      forall k, lru.Contains k c = true -> lru.Contains k c' = true).
Proof.
  intros Hnew Hsz c c'.
  destruct (run_sized _ _ _ _ os Hnew Hsz) as [Hinv Hsized].
  fold c in Hinv, Hsized.
  pose proof Hinv as [Hrw Hfw Hgw Hrs Hfs Hgs Hrf Hrg Hfg].
  pose proof Hsized as [Hsr Hsf Htg Hint Hlen].
  pose proof (Len_nonneg (lru.recent c)) as Hr0.
  pose proof (Len_nonneg (lru.frequent c)) as Hf0.
  (* membership in a pool after the pool's Add of a key *)
  assert (Hgrow : forall p k, simplelru.wf p ->
             simplelru.Len p < simplelru.size p \/ lru.holds key p ->
             simplelru.Len p <= simplelru.size p ->
             lru.holds k p ->
             lru.holds k (snd (simplelru.Add key value p))).
  { intros p k Hwf Hroom Hle Hk.
    destruct (Add_within_capacity key value p Hwf Hle) as (Hiff & Hit & _).
    unfold lru.holds, simplelru.Keys in *.
    destruct (fst (simplelru.Add key value p)) eqn:Hev.
    - destruct (proj1 Hiff eq_refl) as [Hn Hfull].
      destruct Hroom as [Hlt|Hin]; [lia | contradiction].
    - rewrite Hit, Keys_app. apply in_or_app.
      destruct (key_eq_dec k key) as [->|Hne]; [right; now left|].
      left. now apply Delete_other. }
  assert (Hkeep : lru.Contains key c = true ->
                  forall k, lru.Contains k c = true ->
                            lru.Contains k c' = true).
  { subst c'. unfold lru.Add, lru.Contains.
    intros Hc k.
    rewrite !orb_true_iff, !pool_Contains_true.
    destruct (simplelru.Contains key (lru.frequent c)) eqn:Hf.
    - apply pool_Contains_true in Hf. simpl.
      intros [Hk|Hk]; auto. left. apply Hgrow; auto; lia.
    - destruct (simplelru.Contains key (lru.recent c)) eqn:Hr;
        [|simpl in Hc; discriminate].
      apply pool_Contains_true in Hr.
      pose proof (Len_holds key _ Hr) as Hone.
      destruct (pool_Remove key (lru.recent c) Hrw) as (_ & _ & _ & _ & Hoth).
      destruct (Add_post key value (lru.frequent c) Hfw Hfs)
        as (_ & _ & Hin & _).
      simpl. intros [Hk|Hk].
      + left. apply Hgrow; auto; lia.
      + destruct (key_eq_dec k key) as [->|Hne]; [left; exact Hin|].
        right. now apply Hoth. }
  split; [|exact Hkeep].
  intros k1 k2 H1' Hn1 H2' Hn2.
  destruct (lru.Contains key c) eqn:Hc.
  { rewrite (Hkeep eq_refl k1 H1') in Hn1. discriminate. }
  unfold lru.Contains in Hc. apply orb_false_iff in Hc as [Hcf Hcr].
  set (hint := simplelru.Contains key (lru.recentEvict c)).
  destruct (ensureSpace_frees_a_slot hint c Hinv Hsized)
    as (_ & _ & Hsr1 & Hsf1 & Hlt).
  pose proof (ensureSpace_inv hint c Hinv)
    as [Hrw1 Hfw1 Hgw1 _ _ _ _ _ _].
  pose proof (Len_nonneg (lru.recent (lru.ensureSpace hint c))) as Hr1.
  pose proof (Len_nonneg (lru.frequent (lru.ensureSpace hint c))) as Hf1.
  assert (Hsub : forall k, lru.Contains k (lru.ensureSpace hint c) = true ->
                           lru.Contains k c' = true).
  { intros k. subst c'. unfold lru.Add, lru.Contains.
    rewrite Hcf, Hcr. fold hint.
    rewrite !orb_true_iff, !pool_Contains_true.
    destruct hint; simpl; intros [Hk|Hk]; auto.
    - left. apply Hgrow; auto; lia.
    - right. apply Hgrow; auto; lia. }
  apply (ensureSpace_loses_one hint c k1 k2 Hinv); auto.
  - destruct (lru.Contains k1 (lru.ensureSpace hint c)) eqn:E; auto.
    rewrite (Hsub k1 E) in Hn1. discriminate.
  - destruct (lru.Contains k2 (lru.ensureSpace hint c)) eqn:E; auto.
    rewrite (Hsub k2 E) in Hn2. discriminate.
Qed.

Lemma twoq_size_fixed sz recentRatio ghostRatio c0 (os : list (lru.op K V)) :
  lru.New2QParamsG sz recentRatio ghostRatio = Ok c0 ->
  lru.size (lru.run os c0) = sz
  /\ lru.recentSize (lru.run os c0) = lru.recentSize c0.
Proof.
  intros Hnew. destruct (New2QParamsG_shell _ _ _ _ Hnew) as [Hq Hs0].
  pose proof (run_shell os c0 Hq) as Hs.
  pose proof (f_equal lru.size Hs) as E1.
  pose proof (f_equal lru.recentSize Hs) as E2.
  simpl in E1, E2. apply New2QParamsG_ok in Hnew as (_ & _ & ->).
  simpl in *. auto.
Qed.

(** X17: in a cache whose target for [recent] is below its size (a recent
    ratio below 1.0), [Len()] never exceeds [size], whatever the calls
    made, and it is the number of keys [Keys()] lists. *)
Theorem twoq_Len_within_size sz recentRatio ghostRatio c0
  (os : list (lru.op K V)) :
  lru.New2QParamsG sz recentRatio ghostRatio = Ok c0 ->
  lru.recentSize c0 < sz <= GoInt.max_int ->
  let c := lru.run os c0 in
  lru.Len c <= sz
  /\ lru.Len c = Z.of_nat (length (lru.Keys c)).
Proof.
  intros Hnew Hsz c.
  destruct (run_sized _ _ _ _ os Hnew Hsz) as [Hinv [Hsr Hsf Htg Hint Hlen]].
  fold c in Hinv, Hsr, Hsf, Htg, Hint, Hlen.
  destruct (twoq_size_fixed _ _ _ _ os Hnew) as [Hsize _]. fold c in Hsize.
  pose proof (Len_nonneg (lru.recent c)) as Hr0.
  pose proof (Len_nonneg (lru.frequent c)) as Hf0.
  assert (Hl : lru.Len c
               = simplelru.Len (lru.recent c) + simplelru.Len (lru.frequent c)).
  { unfold lru.Len. apply wrap_in_range.
    unfold GoInt.in_range, GoInt.min_int, GoInt.max_int in *. lia. }
  split; [lia|].
  rewrite Hl. unfold lru.Keys, simplelru.Keys, simplelru.Len, omap.Len,
    GoInt.len, omap.Keys.
  rewrite length_app, !length_map. unfold omap.Item in *. lia.
Qed.

End TwoQueueMore.

(** Concrete runs for the further properties of the bounded ordered
    cache. *)

Lemma adds_resizes_nonneg {K V : Type} (kvs : list (K * V)) :
  simplelru.resizes_nonneg (simplelru.adds kvs).
Proof.
  intros sz Hin. unfold simplelru.adds in Hin.
  apply in_map_iff in Hin as (kv & Heq & _). discriminate.
Qed.

Lemma built_adds (C : Z) (cb : bool) (kvs : list (Z * Z)) :
  0 < C <= GoInt.max_int ->
  simplelru.built
    (simplelru.run (simplelru.adds kvs) (simplelru.mkLRUG C [] cb [])).
Proof.
  intros [Hpos Hmax].
  exists C, cb, (simplelru.mkLRUG C [] cb []), (simplelru.adds kvs).
  split; [exact Hmax|]. split.
  - unfold simplelru.NewLRUG. destruct (C <=? 0) eqn:Hc; [lia|reflexivity].
  - split; [apply adds_resizes_nonneg | reflexivity].
Qed.

(** [Add(3, 30)] into a full cache of capacity 2 holding keys 1 and 2. *)
Lemma lru_Add_then_Peek_witness :
  let c := simplelru.run (simplelru.adds [(1, 10); (2, 20)])
             (simplelru.mkLRUG (K:=Z) (V:=Z) 2 [] true []) in
  simplelru.Peek 3 (snd (simplelru.Add 3 30 c)) = (30, true)
  /\ simplelru.Peek 2 (snd (simplelru.Add 3 30 c)) = (20, true)
  /\ fst (fst (simplelru.GetOldest c)) = 1.
Proof.
  intros c.
  assert (Hb : simplelru.built c)
    by (apply built_adds; unfold GoInt.max_int; lia).
  assert (Hone : 1 <= simplelru.size c) by (vm_compute; discriminate).
  destruct (lru_Add_then_Peek 3 30 c Hb Hone) as (Hp & Hkeep & Hlost).
  split; [exact Hp|]. split.
  - rewrite (Hkeep 2); [reflexivity | discriminate | reflexivity].
  - apply (Hlost 1); [discriminate | reflexivity | reflexivity].
Defined.

(** [Remove(1)] on a cache holding keys 1 and 2, with a callback. *)
Lemma lru_Remove_spec_witness :
  let c := simplelru.run (simplelru.adds [(1, 10); (2, 20)])
             (simplelru.mkLRUG (K:=Z) (V:=Z) 2 [] true []) in
  fst (simplelru.Remove 1 c) = true
  /\ simplelru.Keys (snd (simplelru.Remove 1 c)) = [2]
  /\ simplelru.notified (snd (simplelru.Remove 1 c)) = [(1, 10)].
Proof.
  intros c.
  assert (Hb : simplelru.built c)
    by (apply built_adds; unfold GoInt.max_int; lia).
  destruct (lru_Remove_spec 1 c Hb) as (Hf & _ & Hk & _ & _ & _ & Hn).
  destruct (Hn eq_refl) as [_ Hn'].
  split; [exact Hf|]. split; [exact Hk | exact Hn'].
Defined.

(** [RemoveOldest] on a cache holding keys 1 and 2. *)
Lemma lru_RemoveOldest_spec_witness :
  let c := simplelru.run (simplelru.adds [(1, 10); (2, 20)])
             (simplelru.mkLRUG (K:=Z) (V:=Z) 2 [] true []) in
  fst (simplelru.RemoveOldest c) = (1, 10, true)
  /\ simplelru.GetOldest c = (1, 10, true).
Proof.
  intros c.
  assert (Hb : simplelru.built c)
    by (apply built_adds; unfold GoInt.max_int; lia).
  destruct (lru_RemoveOldest_spec c Hb) as (Heq & _ & _).
  split; [rewrite Heq|]; reflexivity.
Defined.

(** Five distinct keys into a cache of capacity 2: the last two stay. *)
Lemma lru_Add_distinct_keeps_newest_witness :
  simplelru.Keys
    (simplelru.run
       (simplelru.adds [(1, 10); (2, 20); (3, 30); (4, 40); (5, 50)])
       (simplelru.mkLRUG (K:=Z) (V:=Z) 2 [] false []))
  = [4; 5].
Proof.
  refine (proj2 (lru_Add_distinct_keeps_newest (K:=Z) (V:=Z) 2 false _
                   [(1, 10); (2, 20); (3, 30); (4, 40); (5, 50)]
                   eq_refl _)).
  simpl. repeat constructor; simpl; intuition discriminate.
Defined.

(** [Get(1)] on a cache holding keys 1 and 2. *)
Lemma lru_Get_keeps_contents_witness :
  let c := simplelru.run (simplelru.adds [(1, 10); (2, 20)])
             (simplelru.mkLRUG (K:=Z) (V:=Z) 2 [] true []) in
  simplelru.Peek 2 (snd (simplelru.Get 1 c)) = (20, true)
  /\ simplelru.Len (snd (simplelru.Get 1 c)) = 2.
Proof.
  intros c.
  assert (Hb : simplelru.built c)
    by (apply built_adds; unfold GoInt.max_int; lia).
  destruct (lru_Get_keeps_contents 1 c Hb) as (Hp & _ & Hl & _).
  split; [rewrite Hp | rewrite Hl]; reflexivity.
Defined.

(** The keys of a cache after three [Add]s, one of them a repeat. *)
Lemma lru_Keys_unique_witness :
  NoDup
    (simplelru.Keys
       (simplelru.run (simplelru.adds [(1, 10); (2, 20); (1, 11)])
          (simplelru.mkLRUG (K:=Z) (V:=Z) 2 [] true []))).
Proof.
  refine (proj1 (lru_Keys_unique _ _)).
  apply built_adds. unfold GoInt.max_int. lia.
Defined.

(** [Add(3, 30)] into a full cache with a callback: one call, on the
    oldest entry. *)
Lemma lru_Add_notifies_evicted_witness :
  let c := simplelru.run (simplelru.adds [(1, 10); (2, 20)])
             (simplelru.mkLRUG (K:=Z) (V:=Z) 2 [] true []) in
  simplelru.notified (snd (simplelru.Add 3 30 c)) = [(1, 10)].
Proof.
  intros c.
  assert (Hb : simplelru.built c)
    by (apply built_adds; unfold GoInt.max_int; lia).
  assert (Hone : 1 <= simplelru.size c) by (vm_compute; discriminate).
  rewrite (lru_Add_notifies_evicted 3 30 c Hb Hone). reflexivity.
Defined.

(** Concrete runs for the further properties of the two-queue cache: a
    cache of size 4 with the default ratios (target 1 for [recent], ghost
    capacity 2), after [Add(1, 10); Add(2, 20)]. *)

Lemma twoq_example_built :
  lru.New2QParamsG (K:=Z) (V:=Z) 4 Float64.f0_25 Float64.f0_50
  = Ok (lru.mkTwoQueueCacheG 4 1
          (simplelru.mkLRUG 4 [] false [])
          (simplelru.mkLRUG 4 [] false [])
          (simplelru.mkLRUG 2 [] false [])).
Proof. reflexivity. Qed.

Lemma twoq_example_reachable (os : list (lru.op Z Z)) :
  lru.reachable
    (lru.run os
       (lru.mkTwoQueueCacheG 4 1
          (simplelru.mkLRUG 4 [] false [])
          (simplelru.mkLRUG 4 [] false [])
          (simplelru.mkLRUG 2 [] false []))).
Proof.
  exists 4, Float64.f0_25, Float64.f0_50.
  eexists. exists os. split; [apply twoq_example_built | reflexivity].
Qed.

Lemma twoq_Get_promotes_witness :
  let c := lru.run [lru.OpAdd 1 10; lru.OpAdd 2 20]
             (lru.mkTwoQueueCacheG (K:=Z) (V:=Z) 4 1
                (simplelru.mkLRUG 4 [] false [])
                (simplelru.mkLRUG 4 [] false [])
                (simplelru.mkLRUG 2 [] false [])) in
  lru.holds 1 (lru.frequent (snd (lru.Get 1 c)))
  /\ ~ lru.holds 1 (lru.recent (snd (lru.Get 1 c))).
Proof.
  intros c.
  destruct (twoq_Get_promotes 1 c (twoq_example_reachable _))
    as (_ & Hrec & _).
  assert (Hr : lru.holds 1 (lru.recent c)) by (vm_compute; now left).
  destruct (Hrec Hr) as (Hf & Hn & _). split; assumption.
Defined.

Lemma twoq_Get_keeps_contents_witness :
  lru.Peek 2
    (snd (lru.Get 1
            (lru.run [lru.OpAdd 1 10; lru.OpAdd 2 20]
               (lru.mkTwoQueueCacheG (K:=Z) (V:=Z) 4 1
                  (simplelru.mkLRUG 4 [] false [])
                  (simplelru.mkLRUG 4 [] false [])
                  (simplelru.mkLRUG 2 [] false [])))))
  = (20, true).
Proof.
  assert (Hsz : 1 < 4 <= GoInt.max_int) by (unfold GoInt.max_int; lia).
  destruct (twoq_Get_keeps_contents 4 Float64.f0_25 Float64.f0_50 _
              [lru.OpAdd 1 10; lru.OpAdd 2 20] 1 twoq_example_built Hsz)
    as (Hp & _).
  rewrite (Hp 2). reflexivity.
Defined.

Lemma twoq_Keys_unique_witness :
  NoDup
    (lru.Keys
       (lru.run [lru.OpAdd 1 10; lru.OpAdd 2 20; lru.OpGet 1]
          (lru.mkTwoQueueCacheG (K:=Z) (V:=Z) 4 1
             (simplelru.mkLRUG 4 [] false [])
             (simplelru.mkLRUG 4 [] false [])
             (simplelru.mkLRUG 2 [] false [])))).
Proof.
  exact (proj1 (twoq_Keys_unique _ (twoq_example_reachable _))).
Defined.


Lemma twoq_Purge_restores_witness :
  lru.Purge
    (lru.run [lru.OpAdd 1 10; lru.OpAdd 2 20; lru.OpGet 1]
       (lru.mkTwoQueueCacheG (K:=Z) (V:=Z) 4 1
          (simplelru.mkLRUG 4 [] false [])
          (simplelru.mkLRUG 4 [] false [])
          (simplelru.mkLRUG 2 [] false [])))
  = lru.mkTwoQueueCacheG 4 1
      (simplelru.mkLRUG 4 [] false [])
      (simplelru.mkLRUG 4 [] false [])
      (simplelru.mkLRUG 2 [] false []).
Proof.
  exact (proj1 (twoq_Purge_restores 4 Float64.f0_25 Float64.f0_50 _
                  [lru.OpAdd 1 10; lru.OpAdd 2 20; lru.OpGet 1]
                  twoq_example_built)).
Defined.

Lemma twoq_new_key_spares_frequent_witness :
  let c := lru.run [lru.OpAdd 1 10; lru.OpAdd 2 20; lru.OpGet 1;
                    lru.OpAdd 3 30]
             (lru.mkTwoQueueCacheG (K:=Z) (V:=Z) 4 1
                (simplelru.mkLRUG 4 [] false [])
                (simplelru.mkLRUG 4 [] false [])
                (simplelru.mkLRUG 2 [] false [])) in
  lru.frequent (lru.Add 4 40 c) = lru.frequent c.
Proof.
  intros c.
  refine (proj1 (twoq_new_key_spares_frequent 4 40 c eq_refl eq_refl eq_refl
                   _ _)).
  - vm_compute. reflexivity.
  - vm_compute. discriminate.
Defined.

Lemma twoq_pools_within_capacity_witness :
  simplelru.Len
    (lru.recentEvict
       (lru.run [lru.OpAdd 1 10; lru.OpAdd 2 20; lru.OpAdd 3 30]
          (lru.mkTwoQueueCacheG (K:=Z) (V:=Z) 4 1
             (simplelru.mkLRUG 4 [] false [])
             (simplelru.mkLRUG 4 [] false [])
             (simplelru.mkLRUG 2 [] false []))))
  <= 2.
Proof.
  destruct (twoq_pools_within_capacity 4 Float64.f0_25 Float64.f0_50 _
              [lru.OpAdd 1 10; lru.OpAdd 2 20; lru.OpAdd 3 30]
              twoq_example_built) as (_ & _ & _ & _ & Hg).
  exact Hg.
Defined.

Lemma twoq_Add_evicts_at_most_one_witness :
  let c := lru.run [lru.OpAdd 1 10; lru.OpAdd 2 20]
             (lru.mkTwoQueueCacheG (K:=Z) (V:=Z) 4 1
                (simplelru.mkLRUG 4 [] false [])
                (simplelru.mkLRUG 4 [] false [])
                (simplelru.mkLRUG 2 [] false [])) in
  lru.Contains 2 (lru.Add 1 11 c) = true.
Proof.
  intros c.
  assert (Hsz : 1 < 4 <= GoInt.max_int) by (unfold GoInt.max_int; lia).
  destruct (twoq_Add_evicts_at_most_one 4 Float64.f0_25 Float64.f0_50 _
              [lru.OpAdd 1 10; lru.OpAdd 2 20] 1 11 twoq_example_built Hsz)
    as (_ & Hkeep).
  apply (Hkeep eq_refl 2 eq_refl).
Defined.

Lemma twoq_Len_within_size_witness :
  lru.Len
    (lru.run [lru.OpAdd 1 10; lru.OpAdd 2 20; lru.OpAdd 3 30; lru.OpAdd 4 40;
              lru.OpAdd 5 50]
       (lru.mkTwoQueueCacheG (K:=Z) (V:=Z) 4 1
          (simplelru.mkLRUG 4 [] false [])
          (simplelru.mkLRUG 4 [] false [])
          (simplelru.mkLRUG 2 [] false [])))
  <= 4.
Proof.
  assert (Hsz : 1 < 4 <= GoInt.max_int) by (unfold GoInt.max_int; lia).
  exact (proj1 (twoq_Len_within_size 4 Float64.f0_25 Float64.f0_50 _
                  [lru.OpAdd 1 10; lru.OpAdd 2 20; lru.OpAdd 3 30;
                   lru.OpAdd 4 40; lru.OpAdd 5 50]
                  twoq_example_built Hsz)).
Defined.
